(** * ai-knowledge-concierge: chunking and answer assembly

    A shallow embedding of [data_loader.py] (the text segmenter and the
    document summary) and of [rag_engine.py] (context assembly around the
    external generation call), with the properties of the specification
    stated and settled against it.

    Python [str] values are sequences of Unicode code points, and [len]
    counts code points, so a string is modelled as a list of code points. *)

From Stdlib Require Import ZArith NArith List String Ascii DecimalString Lia.
From stdpp Require Import base list strings gmap.

Local Open Scope Z_scope.

(** ** Python strings *)

Module Py.

Abbreviation str := (list N).

(** [len] of a string or of a list. *)
Definition len {A} (l : list A) : Z := Z.of_nat (length l).

Definition nl : str := [10%N].

(** [sep.join(parts)] *)
Fixpoint join_with (sep : str) (parts : list str) : str :=
  match parts with
  | [] => []
  | [p] => p
  | p :: ps => p ++ sep ++ join_with sep ps
  end.

(** ["".join(parts)] *)
Definition join (parts : list str) : str := concat parts.

(** Truthiness of a string or of a list: non-empty. *)
Definition truthy {A} (l : list A) : bool :=
  match l with [] => false | _ :: _ => true end.

(** The characters [str.strip()] removes: those for which [str.isspace]
    holds. *)
Definition isspace (c : N) : bool :=
  ((9 <=? c) && (c <=? 13) || (28 <=? c) && (c <=? 32)
   || (c =? 133) || (c =? 160) || (c =? 5760)
   || (8192 <=? c) && (c <=? 8202)
   || (c =? 8232) || (c =? 8233) || (c =? 8239) || (c =? 8287)
   || (c =? 12288))%N.

Fixpoint lstrip (s : str) : str :=
  match s with
  | [] => []
  | c :: t => if isspace c then lstrip t else s
  end.

Definition rstrip (s : str) : str := rev (lstrip (rev s)).

Definition strip (s : str) : str := rstrip (lstrip s).

(** [s[-k:]] for [k > 0]: the slice starts at [max(0, len(s) - k)]. *)
Definition slice_from_end (k : Z) (s : str) : str :=
  drop (Z.to_nat (Z.max 0 (len s - k))) s.

(** [str(n)] for a non-negative integer: its decimal digits. *)
Definition str_of_nat (n : nat) : str :=
  map N_of_ascii (list_ascii_of_string (NilEmpty.string_of_uint (Nat.to_uint n))).

(** String literals of the source are written as UTF-8 text and decoded
    to code points. *)
Fixpoint utf8_decode (bs : list N) : str :=
  match bs with
  | [] => []
  | b :: r =>
      if (b <? 128)%N then b :: utf8_decode r
      else if (b <? 224)%N then
        match r with
        | b1 :: r1 => ((b mod 32) * 64 + b1 mod 64)%N :: utf8_decode r1
        | _ => []
        end
      else if (b <? 240)%N then
        match r with
        | b1 :: b2 :: r2 =>
            ((b mod 16) * 4096 + (b1 mod 64) * 64 + b2 mod 64)%N :: utf8_decode r2
        | _ => []
        end
      else
        match r with
        | b1 :: b2 :: b3 :: r3 =>
            ((b mod 8) * 262144 + (b1 mod 64) * 4096 + (b2 mod 64) * 64 + b3 mod 64)%N
              :: utf8_decode r3
        | _ => []
        end
  end.

Definition lit (s : string) : str :=
  utf8_decode (map N_of_ascii (list_ascii_of_string s)).

End Py.

Import Py.

(** ** config.py *)

Module Config.
Definition CHUNK_SIZE : Z := 500.
Definition CHUNK_OVERLAP : Z := 50.
Definition DEFAULT_TOP_K : Z := 5.
End Config.

(** ** data_loader.py *)

Module DataLoader.

(** The character class of the split pattern: the ideographic full stop,
    the fullwidth full stop, exclamation mark and question mark, and the
    line feed. *)
Definition is_boundary (c : N) : bool :=
  ((c =? 12290) || (c =? 65294) || (c =? 65281) || (c =? 65311) || (c =? 10))%N.

(** [re.split] on the zero-width pattern [(?<=[...])]: the text is cut
    after every character of the class, also after the last one, which
    leaves an empty final piece. *)
Fixpoint re_split (text : str) : list str :=
  match text with
  | [] => [[]]
  | c :: t =>
      if is_boundary c then [c] :: re_split t
      else match re_split t with
           | p :: ps => (c :: p) :: ps
           | [] => [[c]]
           end
  end.

(** [[s.strip() for s in sentences if s.strip()]] *)
Definition sentences (text : str) : list str :=
  map strip (List.filter (fun s => truthy (strip s)) (re_split text)).

Record loop_state := LoopState {
  chunks : list str;
  current_chunk : list str;
  current_length : Z
}.

Definition init : loop_state :=
  {| chunks := []; current_chunk := []; current_length := 0 |}.

(** The guard of the [if] in the loop. *)
Definition must_close (chunk_size : Z) (st : loop_state) (sentence : str) : bool :=
  (chunk_size <? current_length st + len sentence) && truthy (current_chunk st).

(** [overlap_text] as computed when a chunk is closed. *)
Definition overlap_text (overlap : Z) (closed : str) : str :=
  if 0 <? overlap then slice_from_end overlap closed else [].

(** The body of the [if]: the running chunk is emitted and the next one is
    started from the overlap text. *)
Definition close_chunk (overlap : Z) (st : loop_state) : loop_state :=
  let ov := overlap_text overlap (join (current_chunk st)) in
  {| chunks := chunks st ++ [join (current_chunk st)];
     current_chunk := if truthy ov then [ov] else [];
     current_length := len ov |}.

(** One iteration of [for sentence in sentences]. *)
Definition loop_body (chunk_size overlap : Z) (st : loop_state) (sentence : str)
  : loop_state :=
  let st1 := if must_close chunk_size st sentence then close_chunk overlap st else st in
  {| chunks := chunks st1;
     current_chunk := current_chunk st1 ++ [sentence];
     current_length := current_length st1 + len sentence |}.

Definition run (chunk_size overlap : Z) (units : list str) : loop_state :=
  fold_left (loop_body chunk_size overlap) units init.

(** What is returned once the loop is over. *)
Definition finish (st : loop_state) : list str :=
  if truthy (current_chunk st) then chunks st ++ [join (current_chunk st)]
  else chunks st.

Definition split_text_into_chunks (text : str) (chunk_size overlap : Z) : list str :=
  if truthy (strip text) then finish (run chunk_size overlap (sentences text))
  else [].

Definition split_text_into_chunks_default (text : str) : list str :=
  split_text_into_chunks text Config.CHUNK_SIZE Config.CHUNK_OVERLAP.

(** A chunk is a [dict[str, str]] with the keys ["text"], ["source"] and,
    for PDF pages, ["page"]. *)
Abbreviation chunk := (gmap string str).

Record summary := Summary {
  total_chunks : Z;
  total_chars : Z;
  sources : list str
}.

(** [chunk.get("source", "不明")] *)
Definition chunk_source (c : chunk) : str :=
  default (lit "不明") (c !! "source"%string).

(** [chunk.get("text", default)], the default being the empty string *)
Definition chunk_text (c : chunk) : str :=
  default [] (c !! "text"%string).

(** The body of [for chunk in chunks], on the pair of the set [sources]
    and the counter [total_chars]. *)
Definition summary_step (acc : gset str * Z) (c : chunk) : gset str * Z :=
  (acc.1 ∪ {[ chunk_source c ]}, acc.2 + len (chunk_text c)).

(** [list(sources)] lists the members of the set once each, in an order
    the language leaves open; [elements] does the same. *)
Definition get_document_summary (cs : list chunk) : summary :=
  let acc := fold_left summary_step cs (∅, 0) in
  {| total_chunks := len cs; total_chars := acc.2; sources := elements acc.1 |}.

End DataLoader.

Import DataLoader.

(** ** rag_engine.py *)

Module RagEngine.

(** A call either returns a value or raises an exception [e]; the
    exception is represented by its message [str(e)]. *)
Inductive outcome (A : Type) : Type :=
| Returned (a : A)
| Raised (message : str).
Arguments Returned {A} a.
Arguments Raised {A} message.

Section Engine.

(** Similarity scores are floating-point numbers that the engine only
    passes on; [score_zero] stands for [0.0]. *)
Variable score : Type.
Variable score_zero : score.

(** An element of the list returned by [query_collection]: the key
    ["text"] is indexed directly, ["source"] and ["score"] are read with
    [.get] and a default. *)
Record retrieved := Retrieved {
  r_text : str;
  r_source : option str;
  r_score : option score
}.

(** An element of the returned ["sources"] list. *)
Record source_entry := SourceEntry {
  e_source : str;
  e_text : str;
  e_score : score
}.

(** The returned dict. *)
Record answer_dict := AnswerDict {
  answer : str;
  answer_sources : list source_entry
}.

(** [vectorizer.query_collection(query, n_results=top_k)]; the module is
    not part of the sources under study and is taken as a parameter. *)
Variable query_collection : str -> Z -> outcome (list retrieved).

(** The external model: [genai.configure], [GenerativeModel],
    [generate_content] and [response.text], from the API key, the model
    name and the prompt. *)
Variable generate_content : str -> str -> str -> outcome str.

Definition NO_MATERIAL : str :=
  lit "関連する資料が見つかりませんでした。一般的な知識に基づいて回答するか、資料が不足している旨を伝えてください。".

Definition UNKNOWN_SOURCE : str := lit "不明なソース".

Definition ERROR_PREFIX : str := lit "?? 回答生成中にエラーが発生しました: ".

(** [enumerate(l)], counting from [start]. *)
Fixpoint enumerate_from {A} (start : nat) (l : list A) : list (nat * A) :=
  match l with
  | [] => []
  | x :: t => (start, x) :: enumerate_from (S start) t
  end.

(** The f-string appended to [context_parts]. *)
Definition context_part (i : nat) (c : retrieved) : str :=
  lit "--- 資料 " ++ str_of_nat (i + 1) ++ lit " ---" ++ nl ++ r_text c.

(** The dict appended to [sources]. *)
Definition source_of (c : retrieved) : source_entry :=
  {| e_source := default UNKNOWN_SOURCE (r_source c);
     e_text := r_text c;
     e_score := default score_zero (r_score c) |}.

(** The body of [for i, chunk in enumerate(relevant_chunks)], on the pair
    of [context_parts] and [sources]. *)
Definition context_step (acc : list str * list source_entry) (ic : nat * retrieved)
  : list str * list source_entry :=
  (acc.1 ++ [context_part ic.1 ic.2], acc.2 ++ [source_of ic.2]).

(** Step 2 of [generate_answer]: [context_text] and [sources]. *)
Definition build_context (relevant_chunks : list retrieved)
  : str * list source_entry :=
  if truthy relevant_chunks then
    let acc := fold_left context_step (enumerate_from 0 relevant_chunks) ([], []) in
    (join_with (nl ++ nl) acc.1, acc.2)
  else (NO_MATERIAL, []).

(** Step 3: the prompt, line by line. *)
Definition make_prompt (context_text query : str) : str :=
  nl ++ join_with nl [
    lit "あなたは誠実で優秀なAIアシスタント「AIナレッジ・コンシェルジュ」です。";
    lit "提供された「参考資料」の内容のみに基づいて、ユーザーの質問に正確に答えてください。";
    [];
    lit "【制約事項】";
    lit "・資料に記載がない場合は「提供された資料にはその情報が含まれていません」とはっきり伝えてください。";
    lit "・推測で答えないでください。";
    lit "・回答は簡潔かつ丁寧な日本語で行ってください。";
    lit "・専門用語は必要に応じて分かりやすく解説してください。";
    [];
    lit "【参考資料】";
    context_text;
    [];
    lit "【ユーザーの質問】";
    query;
    [];
    lit "【回答】"
  ] ++ nl.

(** Step 4: the [try] block around the model and its [except] branch. *)
Definition respond (generated : outcome str) (sources : list source_entry)
  : answer_dict :=
  match generated with
  | Returned text => {| answer := text; answer_sources := sources |}
  | Raised e => {| answer := ERROR_PREFIX ++ e; answer_sources := sources |}
  end.

(** The query to the store is made outside the [try] block: an exception
    there leaves [generate_answer] as it is. *)
Definition generate_answer (query api_key model_name : str) (top_k : Z)
  : outcome answer_dict :=
  match query_collection query top_k with
  | Raised e => Raised e
  | Returned relevant_chunks =>
      let ctx := build_context relevant_chunks in
      let prompt := make_prompt ctx.1 query in
      Returned (respond (generate_content api_key model_name prompt) ctx.2)
  end.

End Engine.

Arguments Retrieved {score}.
Arguments r_text {score}.
Arguments r_source {score}.
Arguments r_score {score}.
Arguments SourceEntry {score}.
Arguments e_source {score}.
Arguments e_text {score}.
Arguments e_score {score}.
Arguments AnswerDict {score}.
Arguments answer {score}.
Arguments answer_sources {score}.
Arguments enumerate_from {A}.
Arguments context_part {score}.
Arguments source_of {score}.
Arguments context_step {score}.
Arguments build_context {score}.
Arguments respond {score}.
Arguments generate_answer {score}.

End RagEngine.

Import RagEngine.

(** ** data_loader.py: cleaning and the two loaders *)

Module Loaders.

(** [re.sub(pattern, repl, text)] for a pattern that is one character class
    repeated one or more times: every maximal run of characters of the
    class is replaced by [repl]. [in_run] tells that the character before
    belongs to a run already replaced. *)
Fixpoint sub_runs (cls : N -> bool) (repl : str) (in_run : bool) (text : str) : str :=
  match text with
  | [] => []
  | c :: t =>
      if cls c then
        if in_run then sub_runs cls repl true t
        else repl ++ sub_runs cls repl true t
      else c :: sub_runs cls repl false t
  end.

Definition re_sub_plus (cls : N -> bool) (repl : str) (text : str) : str :=
  sub_runs cls repl false text.

(** The class of the first pattern of [clean_text], which the source
    writes [s+]: the letter s. *)
Definition is_letter_s (c : N) : bool := (c =? 115)%N.

(** The class of the second pattern: the line feed. *)
Definition is_line_feed (c : N) : bool := (c =? 10)%N.

(** [clean_text], for any class in the place of the first pattern's. *)
Definition clean_text_with (cls : N -> bool) (text : str) : str :=
  let text1 := re_sub_plus cls (lit " ") text in
  let text2 := re_sub_plus is_line_feed nl text1 in
  strip text2.

Definition clean_text (text : str) : str := clean_text_with is_letter_s text.

(** The f-string of the ["source"] entry of a PDF chunk. *)
Definition pdf_source (filename : str) (page_num : nat) : str :=
  filename ++ lit " - ページ " ++ str_of_nat page_num.

(** The dict appended for one chunk of a PDF page. *)
Definition pdf_chunk (filename : str) (page_num : nat) (piece : str) : chunk :=
  {[ "text"%string := piece;
     "source"%string := pdf_source filename page_num;
     "page"%string := str_of_nat page_num ]}.

(** The body of [for page_num, page in enumerate(doc, start=1)], on the
    list [chunks]; a blank page is skipped. *)
Definition page_step (filename : str) (acc : list chunk) (np : nat * str) : list chunk :=
  if truthy (strip np.2) then
    acc ++ map (pdf_chunk filename np.1) (split_text_into_chunks_default np.2)
  else acc.

(** [load_pdf]: PyMuPDF is outside the sources; what it extracts, the texts
    of the pages in order or an exception, is the parameter [extracted].
    Any exception inside the [try] block becomes a [ValueError] with the
    prefixed message. *)
Definition load_pdf (extracted : outcome (list str)) (filename : str)
  : outcome (list chunk) :=
  match extracted with
  | Raised e => Raised (lit "PDF読み込みエラー: " ++ e)
  | Returned pages =>
      Returned (fold_left (page_step filename) (enumerate_from 1 pages) [])
  end.

(** What the HTTP request and the HTML parser give: the extracted text, a
    [requests.RequestException], or another exception. *)
Inductive fetched : Type :=
| Extracted (text : str)
| RequestFailed (message : str)
| OtherFailure (message : str).

(** The dict appended for one chunk of a web page: no ["page"] key. *)
Definition web_chunk (url piece : str) : chunk :=
  {[ "text"%string := piece; "source"%string := url ]}.

(** [load_web]: only a [RequestException] is caught and turned into a
    [ValueError]; any other exception goes through as it is. *)
Definition load_web (page : fetched) (url : str) : outcome (list chunk) :=
  match page with
  | Extracted text =>
      Returned (map (web_chunk url) (split_text_into_chunks_default (clean_text text)))
  | RequestFailed e => Raised (lit "Web読み込みエラー: " ++ e)
  | OtherFailure e => Raised e
  end.

End Loaders.

Import Loaders.

(** ** config.py: the API key *)

Module ApiKey.

(** [st.secrets]: reading it raises when no secrets file exists. *)
Definition get_api_key (secrets : outcome (gmap string str)) : option str :=
  match secrets with
  | Returned m => m !! "GOOGLE_API_KEY"%string
  | Raised _ => None
  end.

Definition is_api_key_valid (api_key : option str) : bool :=
  match api_key with
  | None => false
  | Some k => 30 <=? len (strip k)
  end.

Definition KEY_MISSING : str :=
  lit "?? APIキー未設定（.streamlit/secrets.toml またはサイドバーで設定してください）".

Definition KEY_MALFORMED : str := lit "?? APIキーの形式が不正です".

Definition KEY_SET : str := lit "? APIキー設定済み: ".

(** [f"{api_key[:4]}...{api_key[-4:]}"] *)
Definition masked_key (api_key : str) : str :=
  take 4 api_key ++ lit "..." ++ slice_from_end 4 api_key.

Definition get_api_key_status (secrets : outcome (gmap string str)) : bool * str :=
  match get_api_key secrets with
  | None => (false, KEY_MISSING)
  | Some api_key =>
      if negb (is_api_key_valid (Some api_key)) then (false, KEY_MALFORMED)
      else (true, KEY_SET ++ masked_key api_key)
  end.

End ApiKey.

Import ApiKey.

(** ** app.py: loading the documents *)

Module App.

(** A notice shown in the sidebar: [st.sidebar.success] or
    [st.sidebar.error]. *)
Inductive notice : Type :=
| Success (message : str)
| Error (message : str).

(** An uploaded PDF: its name and what PyMuPDF extracts from the bytes
    that [read()] returns. *)
Record uploaded_file := Uploaded {
  file_name : str;
  file_pages : outcome (list str)
}.

(** The two entries of [st.session_state] that [load_documents] writes. *)
Record session := Session {
  documents_loaded : bool;
  document_summary : option summary
}.

(** [all_chunks] and the notices shown so far. *)
Record loading := Loading {
  all_chunks : list chunk;
  notices : list notice
}.

(** The body of [for uploaded_file in uploaded_files]. *)
Definition pdf_step (acc : loading) (f : uploaded_file) : loading :=
  match load_pdf (file_pages f) (file_name f) with
  | Returned cs =>
      {| all_chunks := all_chunks acc ++ cs;
         notices := notices acc
                    ++ [Success (lit "? " ++ file_name f ++ lit " を読み込みました")] |}
  | Raised e =>
      {| all_chunks := all_chunks acc;
         notices := notices acc ++ [Error (lit "? " ++ file_name f ++ lit ": " ++ e)] |}
  end.

(** The block [if url_input:]. *)
Definition web_step (acc : loading) (url_input : str) (page : fetched) : loading :=
  if truthy url_input then
    match load_web page url_input with
    | Returned cs =>
        {| all_chunks := all_chunks acc ++ cs;
           notices := notices acc
                      ++ [Success (lit "? " ++ url_input ++ lit " を読み込みました")] |}
    | Raised e =>
        {| all_chunks := all_chunks acc;
           notices := notices acc ++ [Error (lit "? URL読み込みエラー: " ++ e)] |}
    end
  else acc.

(** What [load_documents] leaves behind: the session state, the notices
    shown, and the list [create_collection] was called with, if it was
    called. *)
Record effects := Effects {
  session_after : session;
  shown : list notice;
  indexed : option (list chunk)
}.

(** [load_documents]; [create_collection] belongs to the absent
    [vectorizer] module and is a parameter, and [page] is what fetching
    [url_input] gives. *)
Definition load_documents (create_collection : list chunk -> outcome unit)
    (uploaded_files : list uploaded_file) (url_input : str) (page : fetched)
    (st : session) : effects :=
  let acc :=
    web_step (fold_left pdf_step uploaded_files {| all_chunks := []; notices := [] |})
             url_input page in
  if truthy (all_chunks acc) then
    match create_collection (all_chunks acc) with
    | Returned _ =>
        {| session_after :=
             {| documents_loaded := true;
                document_summary := Some (get_document_summary (all_chunks acc)) |};
           shown := notices acc
                    ++ [Success (lit "? " ++ str_of_nat (length (all_chunks acc))
                                 ++ lit "チャンクをベクトル化しました")];
           indexed := Some (all_chunks acc) |}
    | Raised e =>
        {| session_after := st;
           shown := notices acc ++ [Error (lit "? ベクトル化エラー: " ++ e)];
           indexed := Some (all_chunks acc) |}
    end
  else {| session_after := st; shown := notices acc; indexed := None |}.

End App.

Import App.

(** ** app.py: one turn of the chat *)

Module Chat.

Section Turn.

Variable score : Type.
Variable score_zero : score.
Variable query_collection : str -> Z -> outcome (list (retrieved score)).
Variable generate_content : str -> str -> str -> outcome str.

(** An element of [st.session_state.messages]; the message of the user
    has no ["sources"] key. *)
Record chat_message := ChatMessage {
  role : str;
  content : str;
  message_sources : option (list (source_entry score))
}.

(** What the chat part of [render_main] leaves: the history, and the
    exception that ends the function, if one does. *)
Record turn := Turn {
  history : list chat_message;
  raised : option str
}.

(** The chat part of [render_main], from the check of the key on;
    [prompt] is what [st.chat_input] returns and [messages] the history
    so far. [generate_answer] is called without [top_k]. *)
Definition chat_turn (api_key model_name : str) (documents_loaded : bool)
    (prompt : option str) (messages : list chat_message) : turn :=
  if negb (is_api_key_valid (Some api_key)) then
    {| history := messages; raised := None |}
  else if negb documents_loaded then
    {| history := messages; raised := None |}
  else
    match prompt with
    | Some p =>
        if truthy p then
          let messages1 :=
            messages ++ [{| role := lit "user"; content := p;
                            message_sources := None |}] in
          match generate_answer score_zero query_collection generate_content
                  p api_key model_name Config.DEFAULT_TOP_K with
          | Returned result =>
              {| history :=
                   messages1 ++ [{| role := lit "assistant";
                                    content := answer result;
                                    message_sources := Some (answer_sources result) |}];
                 raised := None |}
          | Raised e => {| history := messages1; raised := Some e |}
          end
        else {| history := messages; raised := None |}
    | None => {| history := messages; raised := None |}
    end.

End Turn.

Arguments ChatMessage {score}.
Arguments role {score}.
Arguments content {score}.
Arguments message_sources {score}.
Arguments Turn {score}.
Arguments history {score}.
Arguments raised {score}.
Arguments chat_turn {score}.

End Chat.

Import Chat.

(** ** Vocabulary of the properties *)

(** The loop state when the sentence unit of index [n] is reached. *)
Definition state_before (text : str) (chunk_size overlap : Z) (n : nat) : loop_state :=
  run chunk_size overlap (take n (sentences text)).

(** [d] begins with what closing [c] carries over and goes on with at least
    one more character. *)
Definition carried (overlap : Z) (c d : str) : Prop :=
  exists r, r <> [] /\ d = overlap_text overlap c ++ r.

(** [R] relates every element of [l] to the next one. *)
Definition adjacent (R : str -> str -> Prop) (l : list str) : Prop :=
  forall (i : nat) c d, l !! i = Some c -> l !! S i = Some d -> R c d.

(** A chunk within the size, or made of one sentence unit behind a carried
    prefix of at most [overlap] characters. *)
Definition within_size (chunk_size overlap : Z) (units : list str) (c : str) : Prop :=
  len c <= chunk_size
  \/ exists p s, c = p ++ s /\ In s units /\ len p <= Z.max 0 overlap
                 /\ chunk_size < len p + len s.

(** The size bound with the only exception of a chunk that ends with a
    sentence unit longer than [chunk_size]. *)
Definition size_bound_with_long_units (text : str) (chunk_size overlap : Z) : Prop :=
  Forall (fun c => len c <= chunk_size
                   \/ exists s, In s (sentences text) /\ chunk_size < len s
                                /\ s `suffix_of` c)
         (split_text_into_chunks text chunk_size overlap).

(** Closing a chunk shorter than [overlap] leaves the running chunk empty. *)
Definition short_chunk_starts_empty : Prop :=
  forall text chunk_size overlap n s,
    0 < overlap ->
    sentences text !! n = Some s ->
    must_close chunk_size (state_before text chunk_size overlap n) s = true ->
    len (join (current_chunk (state_before text chunk_size overlap n))) < overlap ->
    current_chunk (close_chunk overlap (state_before text chunk_size overlap n)) = [].

(** A failure of the generation call leaves [generate_answer] as an
    exception carrying a message. *)
Definition generation_failure_raised : Prop :=
  forall (score : Type) (score_zero : score)
         (query_collection : str -> Z -> outcome (list (retrieved score)))
         (generate_content : str -> str -> str -> outcome str)
         (query api_key model_name : str) (top_k : Z)
         (relevant_chunks : list (retrieved score)) (e : str),
    query_collection query top_k = Returned relevant_chunks ->
    generate_content api_key model_name
      (make_prompt (build_context score_zero relevant_chunks).1 query) = Raised e ->
    exists message,
      generate_answer score_zero query_collection generate_content
        query api_key model_name top_k = Raised message.

(** Two units of 500 characters each, both ended by an ideographic full
    stop. *)
Definition two_full_units : str :=
  replicate 499 97%N ++ [12290%N] ++ replicate 499 98%N ++ [12290%N].

(** A store that returns one fragment and a model that is out of quota. *)
Definition one_fragment (query : str) (top_k : Z) : outcome (list (retrieved Z)) :=
  Returned [Retrieved (lit "Rocq is a proof assistant.") (Some (lit "a.pdf")) (Some 1)].

Definition empty_store (query : str) (top_k : Z) : outcome (list (retrieved Z)) :=
  Returned [].

Definition out_of_quota (api_key model_name prompt : str) : outcome str :=
  Raised (lit "quota exceeded").

Definition echo_model (api_key model_name prompt : str) : outcome str :=
  Returned prompt.

(** [s] occurs in [c] as one contiguous piece. *)
Definition occurs_whole (s c : str) : Prop := exists a b, c = a ++ s ++ b.

(** [s] has a character that is not white space. *)
Definition nonblank (s : str) : Prop := Exists (fun ch => isspace ch = false) s.

(** Two line feeds in a row somewhere in [t]. *)
Fixpoint double_line_feed (t : str) : bool :=
  match t with
  | a :: (b :: _) as t' => (a =? 10)%N && (b =? 10)%N || double_line_feed t'
  | _ => false
  end.

(** Every character of the class [cls] in [t] is [r] and stands alone: the
    character before it is not of the class. [prev] tells that a character
    of the class comes just before [t]. *)
Fixpoint settled (cls : N -> bool) (r : N) (prev : bool) (t : str) : Prop :=
  match t with
  | [] => True
  | c :: t' =>
      if cls c then c = r /\ prev = false /\ settled cls r true t'
      else settled cls r false t'
  end.

(** The chunks a file contributes: those of its pages when it loads, none
    when loading it raises. *)
Definition chunks_of_file (f : uploaded_file) : list chunk :=
  match load_pdf (file_pages f) (file_name f) with
  | Returned cs => cs
  | Raised _ => []
  end.

(** The chunks the URL contributes: none when no URL is given or when
    loading it raises. *)
Definition chunks_of_url (url_input : str) (page : fetched) : list chunk :=
  if truthy url_input then
    match load_web page url_input with
    | Returned cs => cs
    | Raised _ => []
    end
  else [].

(** The chunks of the files, in the order of the files, then those of the
    URL. *)
Definition gathered (uploaded_files : list uploaded_file) (url_input : str)
    (page : fetched) : list chunk :=
  concat (map chunks_of_file uploaded_files) ++ chunks_of_url url_input page.

(** * Properties *)

(** ** Strings *)

Section StringFacts.

Lemma truthy_true {A} (l : list A) : truthy l = true <-> l <> [].
Proof. destruct l; simpl; split; congruence. Qed.

Lemma truthy_false {A} (l : list A) : truthy l = false <-> l = [].
Proof. destruct l; simpl; split; congruence. Qed.

Lemma len_nil {A} : len (@nil A) = 0.
Proof. reflexivity. Qed.

Lemma len_app {A} (l k : list A) : len (l ++ k) = len l + len k.
Proof. unfold len. rewrite length_app. lia. Qed.

Lemma len_nonneg {A} (l : list A) : 0 <= len l.
Proof. unfold len. lia. Qed.

Lemma len_pos {A} (l : list A) : l <> [] -> 0 < len l.
Proof. destruct l; [congruence|]. unfold len. simpl. lia. Qed.

Lemma join_snoc (parts : list str) (s : str) : join (parts ++ [s]) = join parts ++ s.
Proof. unfold join. rewrite concat_app. simpl. now rewrite app_nil_r. Qed.

Lemma join_nonempty (parts : list str) :
  parts <> [] -> Forall (fun p => p <> []) parts -> join parts <> [].
Proof.
  intros Hne Hall. destruct parts as [|p ps]; [congruence|].
  inversion Hall as [|? ? Hp _]; subst.
  unfold join. simpl. destruct p; [congruence|]. discriminate.
Qed.

Lemma lstrip_blank (s : str) : Forall (fun c => isspace c = true) s -> lstrip s = [].
Proof.
  induction 1 as [|c t Hc _ IH]; simpl; [reflexivity|]. now rewrite Hc.
Qed.

Lemma lstrip_nil_blank (s : str) : lstrip s = [] -> Forall (fun c => isspace c = true) s.
Proof.
  induction s as [|c t IH]; simpl; [constructor|].
  destruct (isspace c) eqn:Hc; [|discriminate].
  intros Ht. constructor; auto.
Qed.

Lemma strip_blank (s : str) : Forall (fun c => isspace c = true) s -> strip s = [].
Proof.
  intros Hs. unfold strip, rstrip. now rewrite (lstrip_blank s Hs).
Qed.

Lemma strip_nil_blank (s : str) : strip s = [] -> Forall (fun c => isspace c = true) s.
Proof.
  unfold strip, rstrip. intros H.
  apply lstrip_nil_blank.
  assert (Hr : lstrip (rev (lstrip s)) = []).
  { apply (f_equal (@rev N)) in H. now rewrite rev_involutive in H. }
  apply lstrip_nil_blank in Hr.
  apply Forall_rev in Hr. rewrite rev_involutive in Hr.
  destruct (lstrip s) as [|c t] eqn:E; [reflexivity|].
  exfalso. clear H.
  assert (Hc : isspace c = true) by now inversion Hr.
  clear Hr. induction s as [|a u IH]; simpl in E; [discriminate|].
  destruct (isspace a) eqn:Ha; [auto|]. congruence.
Qed.

Lemma slice_from_end_short (k : Z) (s : str) : len s <= k -> slice_from_end k s = s.
Proof.
  intros H. unfold slice_from_end.
  replace (Z.to_nat (Z.max 0 (len s - k))) with 0%nat by lia. reflexivity.
Qed.

Lemma slice_from_end_long (k : Z) (s : str) :
  0 <= k <= len s -> slice_from_end k s = drop (length s - Z.to_nat k) s.
Proof.
  intros H. unfold slice_from_end, len in *. f_equal. lia.
Qed.

Lemma len_slice_from_end (k : Z) (s : str) : 0 <= k -> len (slice_from_end k s) <= k.
Proof.
  intros H. unfold slice_from_end, len. rewrite length_drop. lia.
Qed.

Lemma slice_from_end_nonempty (k : Z) (s : str) :
  0 < k -> s <> [] -> slice_from_end k s <> [].
Proof.
  intros Hk Hs Hnil. apply (f_equal (@length N)) in Hnil.
  unfold slice_from_end, len in Hnil. rewrite length_drop in Hnil.
  destruct s; [congruence|]. simpl in Hnil. lia.
Qed.

End StringFacts.

(** ** The segmenter *)

Section Segmenter.

Variables chunk_size overlap : Z.

Lemma re_split_concat (text : str) : concat (re_split text) = text.
Proof.
  induction text as [|c t IH]; simpl; [reflexivity|].
  destruct (is_boundary c); simpl; [now rewrite IH|].
  destruct (re_split t) as [|p ps]; simpl in *; [now subst|].
  now rewrite <- IH.
Qed.

Lemma sentences_nonempty (text : str) : Forall (fun s => s <> []) (sentences text).
Proof.
  unfold sentences. apply List.Forall_forall. intros s Hs.
  apply in_map_iff in Hs as (p & <- & Hp).
  apply filter_In in Hp as [_ Hp]. now apply truthy_true.
Qed.

Lemma sentences_blank (text : str) : strip text = [] -> sentences text = [].
Proof.
  intros H. apply strip_nil_blank in H.
  assert (Hall : Forall (fun p => strip p = []) (re_split text)).
  { rewrite <- (re_split_concat text) in H.
    induction (re_split text) as [|p ps IH]; [constructor|].
    simpl in H. apply Forall_app in H as [Hp Hps].
    constructor; [now apply strip_blank | auto]. }
  unfold sentences. induction Hall as [|p ps Hp _ IH]; simpl; [reflexivity|].
  now rewrite Hp.
Qed.

Lemma run_snoc (l : list str) (s : str) :
  run chunk_size overlap (l ++ [s])
  = loop_body chunk_size overlap (run chunk_size overlap l) s.
Proof. unfold run. now rewrite fold_left_app. Qed.

(** Induction along the loop: from the initial state, over one more
    iteration. *)
Lemma run_ind (P : list str -> loop_state -> Prop) :
  P [] init ->
  (forall l s, P l (run chunk_size overlap l) ->
               P (l ++ [s]) (loop_body chunk_size overlap (run chunk_size overlap l) s)) ->
  forall l, P l (run chunk_size overlap l).
Proof.
  intros H0 Hstep l. induction l as [|s l IH] using rev_ind; [exact H0|].
  rewrite run_snoc. now apply Hstep.
Qed.

(** *** What closing a chunk carries over *)

Lemma overlap_text_nonpos (c : str) : overlap <= 0 -> overlap_text overlap c = [].
Proof. intros H. unfold overlap_text. now destruct (Z.ltb_spec 0 overlap); [lia|]. Qed.

Lemma overlap_text_short (c : str) :
  0 < overlap -> len c <= overlap -> overlap_text overlap c = c.
Proof.
  intros H Hc. unfold overlap_text. destruct (Z.ltb_spec 0 overlap); [|lia].
  now apply slice_from_end_short.
Qed.

Lemma overlap_text_long (c : str) :
  0 < overlap <= len c ->
  overlap_text overlap c = drop (length c - Z.to_nat overlap) c.
Proof.
  intros H. unfold overlap_text. destruct (Z.ltb_spec 0 overlap); [|lia].
  apply slice_from_end_long. lia.
Qed.

Lemma len_overlap_text (c : str) : len (overlap_text overlap c) <= Z.max 0 overlap.
Proof.
  unfold overlap_text. destruct (Z.ltb_spec 0 overlap).
  - pose proof (len_slice_from_end overlap c). lia.
  - rewrite len_nil. lia.
Qed.

Lemma close_chunk_join (st : loop_state) :
  join (current_chunk (close_chunk overlap st))
  = overlap_text overlap (join (current_chunk st)).
Proof.
  unfold close_chunk. simpl.
  destruct (overlap_text overlap (join (current_chunk st))) as [|c t]; simpl;
    [reflexivity|]. unfold join. simpl. now rewrite app_nil_r.
Qed.

Lemma close_chunk_length (st : loop_state) :
  current_length (close_chunk overlap st)
  = len (join (current_chunk (close_chunk overlap st))).
Proof. now rewrite close_chunk_join. Qed.

Lemma close_chunk_nonempty (st : loop_state) :
  Forall (fun p => p <> []) (current_chunk (close_chunk overlap st)).
Proof.
  unfold close_chunk. simpl.
  destruct (overlap_text overlap (join (current_chunk st))) as [|c t]; simpl;
    repeat constructor. discriminate.
Qed.

(** *** One iteration *)

Lemma body_chunks (st : loop_state) (s : str) :
  chunks (loop_body chunk_size overlap st s)
  = if must_close chunk_size st s then chunks st ++ [join (current_chunk st)]
    else chunks st.
Proof. unfold loop_body. now destruct (must_close chunk_size st s). Qed.

Lemma body_join (st : loop_state) (s : str) :
  join (current_chunk (loop_body chunk_size overlap st s))
  = (if must_close chunk_size st s then overlap_text overlap (join (current_chunk st))
     else join (current_chunk st)) ++ s.
Proof.
  unfold loop_body. simpl. rewrite join_snoc.
  destruct (must_close chunk_size st s); [now rewrite close_chunk_join | reflexivity].
Qed.

Lemma body_current_nonempty (st : loop_state) (s : str) :
  current_chunk (loop_body chunk_size overlap st s) <> [].
Proof. unfold loop_body. simpl. intros H. now apply app_nil in H as [_ H]. Qed.

(** *** Reachable states *)

Lemma run_current_nonempty (l : list str) :
  l <> [] -> current_chunk (run chunk_size overlap l) <> [].
Proof.
  destruct l as [|s l _] using rev_ind; [congruence|].
  intros _. rewrite run_snoc. apply body_current_nonempty.
Qed.

Lemma run_length (l : list str) :
  current_length (run chunk_size overlap l)
  = len (join (current_chunk (run chunk_size overlap l))).
Proof.
  apply (run_ind (fun _ st => current_length st = len (join (current_chunk st))));
    [reflexivity|].
  intros k s IH. rewrite body_join. unfold loop_body. simpl.
  destruct (must_close chunk_size _ s).
  - rewrite len_app, close_chunk_length, close_chunk_join. reflexivity.
  - rewrite len_app, IH. reflexivity.
Qed.

Lemma run_parts_nonempty (l : list str) :
  Forall (fun s => s <> []) l ->
  Forall (fun p => p <> []) (current_chunk (run chunk_size overlap l)).
Proof.
  apply (run_ind (fun k st => Forall (fun s => s <> []) k ->
                              Forall (fun p => p <> []) (current_chunk st))).
  - constructor.
  - intros k s IH Hks. apply Forall_app in Hks as [Hk Hs].
    unfold loop_body. simpl. apply Forall_app. split; [|exact Hs].
    destruct (must_close chunk_size _ s); [apply close_chunk_nonempty | auto].
Qed.

Lemma finish_run (l : list str) :
  l <> [] ->
  finish (run chunk_size overlap l)
  = chunks (run chunk_size overlap l) ++ [join (current_chunk (run chunk_size overlap l))].
Proof.
  intros Hl. unfold finish.
  destruct (current_chunk (run chunk_size overlap l)) eqn:E; [|reflexivity].
  now apply run_current_nonempty in E.
Qed.

Lemma split_nonblank (text : str) :
  sentences text <> [] ->
  split_text_into_chunks text chunk_size overlap
  = finish (run chunk_size overlap (sentences text)).
Proof.
  intros H. unfold split_text_into_chunks.
  destruct (strip text) eqn:E; [|reflexivity].
  now apply sentences_blank in E.
Qed.

Lemma split_blank (text : str) :
  sentences text = [] -> split_text_into_chunks text chunk_size overlap = [].
Proof.
  intros H. unfold split_text_into_chunks. rewrite H.
  now destruct (truthy (strip text)).
Qed.

End Segmenter.

(** ** Consecutive chunks *)

Section Chaining.

Variables chunk_size overlap : Z.

Lemma adjacent_single R (x : str) : adjacent R [x].
Proof. intros i c d _ Hd. destruct i; discriminate. Qed.

Lemma adjacent_snoc R (k : list str) (x y : str) :
  adjacent R (k ++ [x]) -> R x y -> adjacent R ((k ++ [x]) ++ [y]).
Proof.
  intros H Hxy i c d Hc Hd.
  destruct (decide (S i < length (k ++ [x]))%nat) as [Hlt|Hge].
  - rewrite lookup_app_l in Hc by lia. rewrite lookup_app_l in Hd by lia. eauto.
  - pose proof (lookup_lt_Some _ _ _ Hd) as Hb.
    rewrite !length_app in Hb. rewrite length_app in Hge. simpl in Hb, Hge.
    assert (i = length k) as -> by lia.
    rewrite lookup_app_l in Hc by (rewrite length_app; simpl; lia).
    rewrite list_lookup_middle in Hc by reflexivity.
    rewrite lookup_app_r in Hd by (rewrite length_app; simpl; lia).
    rewrite length_app in Hd. simpl in Hd.
    replace (S (length k) - (length k + 1))%nat with 0%nat in Hd by lia.
    simpl in Hd. congruence.
Qed.

Lemma adjacent_extend R (k : list str) (x x' : str) :
  adjacent R (k ++ [x]) -> (forall c, R c x -> R c x') -> adjacent R (k ++ [x']).
Proof.
  intros H Hx i c d Hc Hd.
  pose proof (lookup_lt_Some _ _ _ Hd) as Hb. rewrite length_app in Hb. simpl in Hb.
  assert (Hc' : (k ++ [x]) !! i = Some c).
  { rewrite lookup_app_l in Hc by lia. now rewrite lookup_app_l by lia. }
  destruct (decide (S i < length k)%nat) as [Hlt|Hge].
  - rewrite lookup_app_l in Hd by lia. apply (H i); [exact Hc'|].
    now rewrite lookup_app_l by lia.
  - assert (S i = length k) as Hi by lia.
    rewrite Hi in Hd. rewrite list_lookup_middle in Hd by reflexivity.
    injection Hd as <-. apply Hx. apply (H i); [exact Hc'|].
    rewrite Hi. now rewrite list_lookup_middle.
Qed.

Lemma carried_extend (c x s : str) :
  carried overlap c x -> carried overlap c (x ++ s).
Proof.
  intros (r & Hr & ->). exists (r ++ s). split; [|now rewrite app_assoc].
  intros H. now apply app_nil in H as [H _].
Qed.

(** The closed chunks followed by the running one are chained by the
    overlap text. *)
Lemma run_adjacent (l : list str) :
  Forall (fun s => s <> []) l -> l <> [] ->
  adjacent (carried overlap) (chunks (run chunk_size overlap l)
                    ++ [join (current_chunk (run chunk_size overlap l))]).
Proof.
  induction l as [|s k IH] using rev_ind; [congruence|].
  intros Hks _. apply Forall_app in Hks as [Hk Hs].
  assert (Hs' : s <> []) by now inversion Hs.
  rewrite run_snoc, body_chunks, body_join.
  destruct k as [|a k'] eqn:Ek.
  - change (run chunk_size overlap []) with init.
    unfold must_close. simpl. rewrite andb_false_r. apply adjacent_single.
  - rewrite <- Ek in *. assert (Hne : k <> []) by (subst; discriminate).
    specialize (IH Hk Hne).
    destruct (must_close chunk_size _ s).
    + apply adjacent_snoc; [exact IH|]. exists s. split; [exact Hs'|reflexivity].
    + eapply adjacent_extend; [exact IH|]. intros c. apply carried_extend.
Qed.

Lemma split_adjacent (text : str) :
  adjacent (carried overlap) (split_text_into_chunks text chunk_size overlap).
Proof.
  destruct (sentences text) as [|u us] eqn:E.
  - rewrite split_blank by exact E. intros i c d Hc. discriminate.
  - rewrite split_nonblank by (rewrite E; discriminate).
    rewrite finish_run by (rewrite E; discriminate).
    apply run_adjacent; [|rewrite E; discriminate]. apply sentences_nonempty.
Qed.

End Chaining.

(** ** Claims on the segmenter *)

Lemma two_full_units_chunks :
  map len (sentences two_full_units) = [500; 500]
  /\ map len (split_text_into_chunks_default two_full_units) = [500; 550].
Proof. split; vm_compute; reflexivity. Qed.

(** C1, as stated, fails with the default sizes: the second chunk of
    [two_full_units] is the 50 carried characters followed by a unit of 500
    characters, 550 in all, although no unit is longer than 500. *)
Lemma chunk_size_bound_counterexample :
  ~ size_bound_with_long_units two_full_units Config.CHUNK_SIZE Config.CHUNK_OVERLAP.
Proof.
  unfold size_bound_with_long_units. intros H.
  assert (Hu : forallb (fun s => len s <=? 500) (sentences two_full_units) = true)
    by (vm_compute; reflexivity).
  assert (Hc : existsb (fun c => 500 <? len c)
                 (split_text_into_chunks two_full_units Config.CHUNK_SIZE
                    Config.CHUNK_OVERLAP) = true)
    by (vm_compute; reflexivity).
  apply existsb_exists in Hc as (c & Hin & Hlen).
  apply Z.ltb_lt in Hlen.
  rewrite List.Forall_forall in H. destruct (H c Hin) as [Hle | (s & Hs & Hlong & _)].
  - unfold Config.CHUNK_SIZE in Hle. lia.
  - rewrite forallb_forall in Hu. apply Hu in Hs. apply Z.leb_le in Hs.
    unfold Config.CHUNK_SIZE in Hlong. lia.
Qed.

Section SizeBound.

Variables chunk_size overlap : Z.
Variable units : list str.

Local Abbreviation good := (within_size chunk_size overlap units).

Lemma within_size_unit (p s : str) :
  In s units -> len p <= Z.max 0 overlap -> good (p ++ s).
Proof.
  intros Hs Hp. destruct (Z.le_gt_cases (len (p ++ s)) chunk_size) as [Hle|Hgt].
  - now left.
  - right. exists p, s. rewrite len_app in Hgt. repeat split; auto.
Qed.

(** Every closed chunk and the running chunk are within the size or made
    of a single unit behind the carried prefix. *)
Lemma run_within_size (l : list str) :
  Forall (fun s => In s units) l ->
  Forall good (chunks (run chunk_size overlap l))
  /\ (current_chunk (run chunk_size overlap l) = []
      \/ good (join (current_chunk (run chunk_size overlap l)))).
Proof.
  apply (run_ind chunk_size overlap
           (fun k st => Forall (fun s => In s units) k ->
                        Forall good (chunks st)
                        /\ (current_chunk st = [] \/ good (join (current_chunk st))))).
  - intros _. split; [constructor | now left].
  - intros k s IH Hks. apply Forall_app in Hks as [Hk Hs].
    assert (Hin : In s units) by now inversion Hs.
    destruct (IH Hk) as [Hclosed Hrun]. clear IH.
    rewrite body_chunks, body_join.
    pose proof (run_length chunk_size overlap k) as Hlen.
    destruct (must_close chunk_size (run chunk_size overlap k) s) eqn:Hm.
    + apply andb_true_iff in Hm as [_ Hcur]. apply truthy_true in Hcur.
      destruct Hrun as [Hnil | Hgood]; [congruence|].
      split.
      * apply Forall_app. split; [exact Hclosed | now constructor].
      * right. apply within_size_unit; [exact Hin | apply len_overlap_text].
    + split; [exact Hclosed|]. right.
      apply andb_false_iff in Hm as [Hfit | Hcur].
      * left. apply Z.ltb_ge in Hfit. rewrite len_app, <- Hlen. exact Hfit.
      * apply truthy_false in Hcur. rewrite Hcur. simpl.
        apply (within_size_unit [] s); [exact Hin|]. rewrite len_nil. lia.
Qed.

End SizeBound.

Lemma split_within_size (text : str) (chunk_size overlap : Z) :
  Forall (within_size chunk_size overlap (sentences text))
         (split_text_into_chunks text chunk_size overlap).
Proof.
  destruct (sentences text) as [|u us] eqn:E.
  - rewrite split_blank by exact E. constructor.
  - rewrite split_nonblank by (rewrite E; discriminate).
    rewrite finish_run by (rewrite E; discriminate).
    rewrite <- E.
    destruct (run_within_size chunk_size overlap (sentences text) (sentences text))
      as [Hclosed Hrun].
    { apply List.Forall_forall. auto. }
    apply Forall_app. split; [exact Hclosed|]. constructor; [|constructor].
    destruct Hrun as [Hnil | Hgood]; [|exact Hgood].
    apply run_current_nonempty in Hnil; [contradiction | rewrite E; discriminate].
Qed.

Lemma within_size_no_overlap (chunk_size : Z) (units : list str) (c : str) :
  within_size chunk_size 0 units c ->
  len c <= chunk_size \/ (In c units /\ chunk_size < len c).
Proof.
  intros [Hle | (p & s & -> & Hs & Hp & Hlong)]; [now left|]. right.
  assert (p = []) as ->.
  { destruct p; [reflexivity|]. unfold len in Hp. simpl in Hp. lia. }
  simpl in *. rewrite len_nil in Hlong. split; [exact Hs | lia].
Qed.

(** C1 (amended): every chunk has at most [chunk_size] characters, except a
    chunk made of a single sentence unit, kept whole, behind the prefix
    carried over from the chunk before it, a prefix of at most [overlap]
    characters and of none when [overlap] is not positive. *)
Theorem chunk_size_bound (text : str) (chunk_size overlap : Z) :
  Forall (within_size chunk_size overlap (sentences text))
         (split_text_into_chunks text chunk_size overlap).
Proof. apply split_within_size. Qed.

(** Without overlap nothing is carried, and the bound has the only
    exception of a sentence unit longer than [chunk_size], alone in its
    chunk. *)
Lemma chunk_size_bound_no_overlap (text : str) (chunk_size : Z) :
  Forall (fun c => len c <= chunk_size
                   \/ (In c (sentences text) /\ chunk_size < len c))
         (split_text_into_chunks text chunk_size 0).
Proof.
  eapply Forall_impl; [apply split_within_size|].
  intros c. apply within_size_no_overlap.
Qed.

(** C2, as stated, fails: the ASCII full stop is not in the class of the
    split pattern, so the text is one unit and one chunk. *)
Lemma ascii_scenario_counterexample :
  split_text_into_chunks (lit "A. B. C.") 3 0 <> [lit "A."; lit "B."; lit "C."].
Proof. vm_compute. discriminate. Qed.

(** C2 (amended): on ["A. B. C."] with size 3 and no overlap the result is
    the single chunk ["A. B. C."]; with ideographic full stops in place of
    the ASCII ones the text is cut after each stop, the stop staying on the
    unit before it, and the result is the three chunks. *)
Theorem ascii_scenario_single_chunk :
  split_text_into_chunks (lit "A. B. C.") 3 0 = [lit "A. B. C."]
  /\ split_text_into_chunks (lit "A。 B。 C。") 3 0 = [lit "A。"; lit "B。"; lit "C。"].
Proof. split; vm_compute; reflexivity. Qed.

(** C3: with a positive overlap, a chunk that follows a chunk of at least
    [overlap] characters starts with the last [overlap] characters of it. *)
Theorem next_chunk_starts_with_overlap (text : str) (chunk_size overlap : Z)
    (i : nat) (c d : str) :
  0 < overlap ->
  split_text_into_chunks text chunk_size overlap !! i = Some c ->
  split_text_into_chunks text chunk_size overlap !! S i = Some d ->
  overlap <= len c ->
  take (Z.to_nat overlap) d = drop (length c - Z.to_nat overlap) c.
Proof.
  intros Hov Hc Hd Hlen.
  destruct (split_adjacent chunk_size overlap text i c d Hc Hd) as (r & _ & ->).
  rewrite overlap_text_long by lia.
  apply take_app_length'. rewrite length_drop. unfold len in Hlen. lia.
Qed.

Lemma next_chunk_starts_with_overlap_witness :
  take (Z.to_nat 2) (lit "C。DE。") = drop (length (lit "ABC。") - Z.to_nat 2) (lit "ABC。").
Proof.
  apply (next_chunk_starts_with_overlap (lit "ABC。DE。") 4 2 0 (lit "ABC。") (lit "C。DE。")).
  - lia.
  - vm_compute. reflexivity.
  - vm_compute. reflexivity.
  - vm_compute. discriminate.
Defined.

(** C4, as stated, fails: with size 3 and overlap 5 the chunk ["A。"] of two
    characters is closed when ["B。"] is reached, and the next chunk starts
    with the whole of it. *)
Lemma short_chunk_counterexample : ~ short_chunk_starts_empty.
Proof.
  intros H.
  specialize (H (lit "A。B。") 3 5 1%nat (lit "B。")).
  assert (Hnext : current_chunk (close_chunk 5 (state_before (lit "A。B。") 3 5 1))
                  = [lit "A。"]) by (vm_compute; reflexivity).
  rewrite H in Hnext.
  - discriminate.
  - lia.
  - vm_compute. reflexivity.
  - vm_compute. reflexivity.
  - vm_compute. reflexivity.
Qed.

(** C4 (amended): with a positive overlap, when a chunk shorter than
    [overlap] is closed, the whole of it is carried over: the next chunk
    starts with the closed chunk, followed by the next sentence unit. *)
Theorem short_chunk_carried_whole (text : str) (chunk_size overlap : Z)
    (n : nat) (s : str) :
  0 < overlap ->
  sentences text !! n = Some s ->
  must_close chunk_size (state_before text chunk_size overlap n) s = true ->
  len (join (current_chunk (state_before text chunk_size overlap n))) < overlap ->
  current_chunk (close_chunk overlap (state_before text chunk_size overlap n))
  = [join (current_chunk (state_before text chunk_size overlap n))]
  /\ current_chunk (loop_body chunk_size overlap
                      (state_before text chunk_size overlap n) s)
     = [join (current_chunk (state_before text chunk_size overlap n)); s]
  /\ chunks (loop_body chunk_size overlap (state_before text chunk_size overlap n) s)
     = chunks (state_before text chunk_size overlap n)
       ++ [join (current_chunk (state_before text chunk_size overlap n))].
Proof.
  intros Hov Hs Hm Hshort.
  set (st := state_before text chunk_size overlap n) in *.
  assert (Hcur : current_chunk st <> []).
  { apply andb_true_iff in Hm as [_ Hm]. now apply truthy_true. }
  assert (Hparts : Forall (fun p => p <> []) (current_chunk st)).
  { apply run_parts_nonempty, Forall_take, sentences_nonempty. }
  assert (Hclosed : join (current_chunk st) <> []) by now apply join_nonempty.
  assert (Hnext : current_chunk (close_chunk overlap st) = [join (current_chunk st)]).
  { unfold close_chunk. simpl. rewrite overlap_text_short by lia.
    destruct (join (current_chunk st)); [congruence | reflexivity]. }
  split; [exact Hnext|]. unfold loop_body. rewrite Hm. simpl.
  split; [|reflexivity].
  change (current_chunk (close_chunk overlap st) ++ [s]
          = [join (current_chunk st); s]).
  now rewrite Hnext.
Qed.

Lemma short_chunk_carried_whole_witness :
  current_chunk (close_chunk 5 (state_before (lit "A。B。") 3 5 1))
  = [join (current_chunk (state_before (lit "A。B。") 3 5 1))]
  /\ current_chunk (loop_body 3 5 (state_before (lit "A。B。") 3 5 1) (lit "B。"))
     = [join (current_chunk (state_before (lit "A。B。") 3 5 1)); lit "B。"]
  /\ chunks (loop_body 3 5 (state_before (lit "A。B。") 3 5 1) (lit "B。"))
     = chunks (state_before (lit "A。B。") 3 5 1)
       ++ [join (current_chunk (state_before (lit "A。B。") 3 5 1))].
Proof.
  apply (short_chunk_carried_whole (lit "A。B。") 3 5 1 (lit "B。")).
  - lia.
  - vm_compute. reflexivity.
  - vm_compute. reflexivity.
  - vm_compute. reflexivity.
Defined.

(** In the output as well: a chunk that follows a chunk shorter than a
    positive [overlap] starts with the whole of that chunk. *)
Lemma short_chunk_repeated (text : str) (chunk_size overlap : Z)
    (i : nat) (c d : str) :
  0 < overlap ->
  split_text_into_chunks text chunk_size overlap !! i = Some c ->
  split_text_into_chunks text chunk_size overlap !! S i = Some d ->
  len c < overlap ->
  exists r, r <> [] /\ d = c ++ r.
Proof.
  intros Hov Hc Hd Hlen.
  destruct (split_adjacent chunk_size overlap text i c d Hc Hd) as (r & Hr & ->).
  exists r. rewrite overlap_text_short by lia. auto.
Qed.

Example short_chunk_output :
  split_text_into_chunks (lit "A。B。") 3 5 = [lit "A。"; lit "A。B。"].
Proof. vm_compute. reflexivity. Qed.

(** C8: an empty text, or one of whitespace only, gives no chunk, whatever
    the size and the overlap; the function has no failing branch. *)
Theorem blank_text_no_chunks (text : str) (chunk_size overlap : Z) :
  Forall (fun c => isspace c = true) text ->
  split_text_into_chunks text chunk_size overlap = [].
Proof.
  intros H. unfold split_text_into_chunks. now rewrite (strip_blank text H).
Qed.

Lemma blank_text_no_chunks_witness :
  split_text_into_chunks (lit "   ") Config.CHUNK_SIZE Config.CHUNK_OVERLAP = []
  /\ split_text_into_chunks [] Config.CHUNK_SIZE Config.CHUNK_OVERLAP = [].
Proof.
  split.
  - apply (blank_text_no_chunks (lit "   ")). repeat constructor.
  - apply (blank_text_no_chunks []). constructor.
Defined.

Section Partition.

Variable chunk_size : Z.

(** Without overlap the closed chunks are the joins of groups of
    consecutive units, and the running chunk holds the units that follow. *)
Lemma run_groups (l : list str) :
  exists groups : list (list str),
    chunks (run chunk_size 0 l) = map join groups
    /\ concat groups ++ current_chunk (run chunk_size 0 l) = l
    /\ Forall (fun g => g <> []) groups.
Proof.
  apply (run_ind chunk_size 0
           (fun k st => exists groups : list (list str),
                          chunks st = map join groups
                          /\ concat groups ++ current_chunk st = k
                          /\ Forall (fun g => g <> []) groups)).
  - exists []. repeat split. constructor.
  - intros k s (groups & Hch & Hk & Hne).
    unfold loop_body.
    destruct (must_close chunk_size (run chunk_size 0 k) s) eqn:Hm.
    + apply andb_true_iff in Hm as [_ Hcur]. apply truthy_true in Hcur.
      exists (groups ++ [current_chunk (run chunk_size 0 k)]). simpl.
      split; [|split].
      * rewrite map_app, Hch. reflexivity.
      * rewrite concat_app. simpl. rewrite app_nil_r. now rewrite Hk.
      * apply Forall_app. split; [exact Hne | now constructor].
    + exists groups. simpl. split; [exact Hch|]. split; [|exact Hne].
      now rewrite app_assoc, Hk.
Qed.

End Partition.

(** C10: with [overlap = 0] the chunks are the joins of non-empty groups of
    consecutive sentence units that together are the list of units, each
    unit in exactly one group, so that the chunks put end to end are the
    units put end to end. *)
Theorem zero_overlap_partition (text : str) (chunk_size : Z) :
  (exists groups : list (list str),
      concat groups = sentences text
      /\ Forall (fun g => g <> []) groups
      /\ split_text_into_chunks text chunk_size 0 = map join groups)
  /\ join (split_text_into_chunks text chunk_size 0) = join (sentences text).
Proof.
  assert (H : exists groups : list (list str),
             concat groups = sentences text
             /\ Forall (fun g => g <> []) groups
             /\ split_text_into_chunks text chunk_size 0 = map join groups).
  { destruct (sentences text) as [|u us] eqn:E.
    - exists []. rewrite split_blank by exact E. repeat split. constructor.
    - rewrite split_nonblank by (rewrite E; discriminate).
      rewrite finish_run by (rewrite E; discriminate).
      rewrite <- E.
      destruct (run_groups chunk_size (sentences text)) as (groups & Hch & Hk & Hne).
      exists (groups ++ [current_chunk (run chunk_size 0 (sentences text))]).
      split; [|split].
      + rewrite concat_app. simpl. now rewrite app_nil_r.
      + apply Forall_app. split; [exact Hne|]. constructor; [|constructor].
        apply run_current_nonempty. rewrite E. discriminate.
      + rewrite map_app, Hch. reflexivity. }
  split; [exact H|].
  destruct H as (groups & Hc & _ & ->). rewrite <- Hc.
  unfold join. clear Hc. induction groups as [|g gs IH]; simpl; [reflexivity|].
  now rewrite concat_app, IH.
Qed.

(** ** The document summary *)

Lemma summary_fold (cs : list chunk) (seen : gset str) (n : Z) :
  fold_left summary_step cs (seen, n)
  = (seen ∪ list_to_set (map chunk_source cs),
     n + foldr Z.add 0 (map (fun c => len (chunk_text c)) cs)).
Proof.
  revert seen n. induction cs as [|c cs IH]; intros seen n; simpl.
  - now rewrite union_empty_r_L, Z.add_0_r.
  - unfold summary_step at 2. simpl. rewrite IH.
    now rewrite <- (assoc_L (∪)), Z.add_assoc.
Qed.

(** C6: [total_chunks] is the number of chunks, [total_chars] the sum of
    the lengths of their texts, and [sources] lists, once each, exactly the
    source labels that occur in the list. *)
Theorem document_summary_counts (cs : list chunk) :
  total_chunks (get_document_summary cs) = len cs
  /\ total_chars (get_document_summary cs)
     = foldr Z.add 0 (map (fun c => len (chunk_text c)) cs)
  /\ NoDup (sources (get_document_summary cs))
  /\ forall label : str,
       label ∈ sources (get_document_summary cs)
       <-> exists c, c ∈ cs /\ chunk_source c = label.
Proof.
  unfold get_document_summary. rewrite summary_fold. simpl.
  split; [reflexivity|]. split; [lia|]. split; [apply NoDup_elements|].
  intros label. rewrite elem_of_elements, elem_of_union, elem_of_list_to_set.
  rewrite list_elem_of_fmap. split.
  - intros [Hemp | (c & -> & Hc)]; [now apply elem_of_empty in Hemp | eauto].
  - intros (c & Hc & <-). right. eauto.
Qed.

Example document_summary_example :
  let a : chunk := {[ "text"%string := lit "abc"; "source"%string := lit "a.pdf" ]} in
  let b : chunk := {[ "text"%string := lit "de"; "source"%string := lit "a.pdf" ]} in
  total_chunks (get_document_summary [a; b]) = 2
  /\ total_chars (get_document_summary [a; b]) = 5
  /\ sources (get_document_summary [a; b]) = [lit "a.pdf"].
Proof. vm_compute. repeat split. Qed.

(** ** Context assembly and the answer *)

Section Answer.

Variable score : Type.
Variable score_zero : score.

Lemma context_fold (rs : list (retrieved score)) (start : nat)
    (parts : list str) (srcs : list (source_entry score)) :
  fold_left (context_step score_zero) (enumerate_from start rs) (parts, srcs)
  = (parts ++ imap (fun i c => context_part (start + i) c) rs,
     srcs ++ map (source_of score_zero) rs).
Proof.
  revert start parts srcs.
  induction rs as [|c rs IH]; intros start parts srcs; simpl.
  - now rewrite !app_nil_r.
  - unfold context_step at 2. simpl. rewrite IH, <- !app_assoc. simpl.
    rewrite Nat.add_0_r. do 3 f_equal.
    apply imap_ext. intros i x _. simpl. f_equal. lia.
Qed.

Lemma build_context_nonempty (c : retrieved score) (rs : list (retrieved score)) :
  build_context score_zero (c :: rs)
  = (join_with (nl ++ nl) (imap context_part (c :: rs)),
     map (source_of score_zero) (c :: rs)).
Proof.
  unfold build_context. cbn [truthy]. now rewrite context_fold.
Qed.

Lemma build_context_sources (rs : list (retrieved score)) :
  (build_context score_zero rs).2 = map (source_of score_zero) rs.
Proof.
  destruct rs as [|c rs]; [reflexivity|]. now rewrite build_context_nonempty.
Qed.

End Answer.



(** C7, as stated, fails: when the model is out of quota the call returns
    an ordinary dict, the message sitting in its ["answer"]. *)
Lemma generation_failure_counterexample : ~ generation_failure_raised.
Proof.
  intros H.
  destruct (H Z 0 empty_store out_of_quota (lit "What is Rocq?") (lit "key")
              (lit "gemini-1.5-flash") Config.DEFAULT_TOP_K [] (lit "quota exceeded")
              eq_refl eq_refl) as (message & Hraised).
  unfold generate_answer, empty_store in Hraised. discriminate Hraised.
Qed.

(** C7 (amended): when the generation call fails, [generate_answer] raises
    nothing: it returns a dict of the usual shape whose ["answer"] is the
    fixed error prefix followed by the message of the exception, and whose
    ["sources"] are those built from the retrieval result. *)
Theorem generation_failure_returned (score : Type) (score_zero : score)
    (query_collection : str -> Z -> outcome (list (retrieved score)))
    (generate_content : str -> str -> str -> outcome str)
    (query api_key model_name : str) (top_k : Z)
    (relevant_chunks : list (retrieved score)) (e : str) :
  query_collection query top_k = Returned relevant_chunks ->
  generate_content api_key model_name
    (make_prompt (build_context score_zero relevant_chunks).1 query) = Raised e ->
  generate_answer score_zero query_collection generate_content
    query api_key model_name top_k
  = Returned {| answer := ERROR_PREFIX ++ e;
                answer_sources := map (source_of score_zero) relevant_chunks |}.
Proof.
  intros Hq Hg. unfold generate_answer. rewrite Hq. cbv zeta. rewrite Hg.
  simpl. now rewrite build_context_sources.
Qed.

Lemma generation_failure_returned_witness :
  generate_answer 0 one_fragment out_of_quota (lit "What is Rocq?") (lit "key")
    (lit "gemini-1.5-flash") Config.DEFAULT_TOP_K
  = Returned {| answer := ERROR_PREFIX ++ lit "quota exceeded";
                answer_sources :=
                  map (source_of 0)
                    [Retrieved (lit "Rocq is a proof assistant.")
                       (Some (lit "a.pdf")) (Some 1)] |}.
Proof.
  apply (generation_failure_returned Z 0 one_fragment out_of_quota).
  - reflexivity.
  - reflexivity.
Defined.

(** C9: whatever list the retrieval returns, [generate_answer] returns a
    dict with an answer and with sources that hold one entry per retrieved
    chunk, in retrieval order and with the text of that chunk; the sources
    are the same whatever the generation call does, so also when it
    raises. *)
Theorem sources_kept_on_error (score : Type) (score_zero : score)
    (query_collection : str -> Z -> outcome (list (retrieved score)))
    (generate_content generate_content' : str -> str -> str -> outcome str)
    (query api_key model_name : str) (top_k : Z)
    (relevant_chunks : list (retrieved score)) :
  query_collection query top_k = Returned relevant_chunks ->
  exists d d',
    generate_answer score_zero query_collection generate_content
      query api_key model_name top_k = Returned d
    /\ generate_answer score_zero query_collection generate_content'
         query api_key model_name top_k = Returned d'
    /\ answer_sources d = answer_sources d'
    /\ length (answer_sources d) = length relevant_chunks
    /\ (forall (i : nat) c, relevant_chunks !! i = Some c ->
          e_text <$> answer_sources d !! i = Some (r_text c))
    /\ (forall e,
          generate_content api_key model_name
            (make_prompt (build_context score_zero relevant_chunks).1 query) = Raised e ->
          answer d = ERROR_PREFIX ++ e).
Proof.
  intros Hq. unfold generate_answer. rewrite Hq. cbv zeta.
  eexists _, _. split; [reflexivity|]. split; [reflexivity|].
  assert (Hsrc : forall g : outcome str,
             answer_sources (respond g (build_context score_zero relevant_chunks).2)
             = map (source_of score_zero) relevant_chunks).
  { intros g. rewrite build_context_sources. now destruct g. }
  rewrite !Hsrc. split; [reflexivity|]. split; [apply length_map|]. split.
  - intros i c Hc.
    change (map (source_of score_zero) relevant_chunks)
      with (source_of score_zero <$> relevant_chunks).
    now rewrite list_lookup_fmap, Hc.
  - intros e ->. reflexivity.
Qed.

Lemma sources_kept_on_error_witness :
  exists d d',
    generate_answer 0 one_fragment echo_model (lit "What is Rocq?") (lit "key")
      (lit "gemini-1.5-flash") Config.DEFAULT_TOP_K = Returned d
    /\ generate_answer 0 one_fragment out_of_quota (lit "What is Rocq?") (lit "key")
         (lit "gemini-1.5-flash") Config.DEFAULT_TOP_K = Returned d'
    /\ answer_sources d = answer_sources d'
    /\ length (answer_sources d) = 1%nat.
Proof.
  destruct (sources_kept_on_error Z 0 one_fragment echo_model out_of_quota
              (lit "What is Rocq?") (lit "key") (lit "gemini-1.5-flash")
              Config.DEFAULT_TOP_K
              [Retrieved (lit "Rocq is a proof assistant.") (Some (lit "a.pdf")) (Some 1)]
              eq_refl) as (d & d' & H1 & H2 & H3 & H4 & _).
  exists d, d'. auto.
Defined.

(** * Further properties *)

(** ** Stripping *)

Section StripFacts.

Lemma lstrip_head (s t : str) (c : N) : lstrip s = c :: t -> isspace c = false.
Proof.
  induction s as [|a u IH]; simpl; [discriminate|].
  destruct (isspace a) eqn:Ha; [exact IH|]. intros H. now injection H as <- _.
Qed.

Lemma lstrip_fixed (s : str) (c : N) : isspace c = false -> lstrip (c :: s) = c :: s.
Proof. intros H. simpl. now rewrite H. Qed.

Lemma lstrip_idem (s : str) : lstrip (lstrip s) = lstrip s.
Proof.
  destruct (lstrip s) as [|c t] eqn:E; [reflexivity|].
  apply lstrip_fixed. eapply lstrip_head, E.
Qed.

Lemma lstrip_split (s : str) :
  exists a, s = a ++ lstrip s /\ Forall (fun c => isspace c = true) a.
Proof.
  induction s as [|c t (a & Ha & Hblank)]; simpl.
  - exists []. split; [reflexivity | constructor].
  - destruct (isspace c) eqn:Hc.
    + exists (c :: a). split; [simpl; congruence | now constructor].
    + exists []. split; [reflexivity | constructor].
Qed.

Lemma lstrip_app_blank (a s : str) :
  Forall (fun c => isspace c = true) a -> lstrip (a ++ s) = lstrip s.
Proof. induction 1 as [|c a Hc _ IH]; simpl; [reflexivity|]. now rewrite Hc. Qed.

Lemma lstrip_app_nonspace (u v : str) (h : N) :
  isspace h = false -> lstrip (u ++ h :: v) = lstrip u ++ h :: v.
Proof.
  intros Hh. induction u as [|c u IH]; simpl; [now rewrite Hh|].
  now destruct (isspace c).
Qed.

Lemma rstrip_cons_nonspace (h : N) (l : str) :
  isspace h = false -> rstrip (h :: l) = h :: rstrip l.
Proof.
  intros Hh. unfold rstrip. simpl.
  rewrite lstrip_app_nonspace by exact Hh. now rewrite rev_app_distr.
Qed.

Lemma rstrip_idem (s : str) : rstrip (rstrip s) = rstrip s.
Proof. unfold rstrip. now rewrite rev_involutive, lstrip_idem. Qed.

Lemma rstrip_app_blank (s b : str) :
  Forall (fun c => isspace c = true) b -> rstrip (s ++ b) = rstrip s.
Proof.
  intros Hb. unfold rstrip. rewrite rev_app_distr.
  now rewrite lstrip_app_blank by now apply Forall_rev.
Qed.

Lemma rstrip_split (s : str) :
  exists b, s = rstrip s ++ b /\ Forall (fun c => isspace c = true) b.
Proof.
  destruct (lstrip_split (rev s)) as (a & Ha & Hblank).
  exists (rev a). split; [|now apply Forall_rev].
  unfold rstrip. rewrite <- rev_app_distr, <- Ha. now rewrite rev_involutive.
Qed.

Lemma strip_head (s t : str) (c : N) : strip s = c :: t -> isspace c = false.
Proof.
  unfold strip. destruct (lstrip s) as [|h l] eqn:E; [discriminate|].
  pose proof (lstrip_head _ _ _ E) as Hh.
  rewrite rstrip_cons_nonspace by exact Hh. intros H. now injection H as <- _.
Qed.

Lemma strip_last (s t : str) (c : N) : strip s = t ++ [c] -> isspace c = false.
Proof.
  unfold strip, rstrip. intros H.
  apply (f_equal (@rev N)) in H. rewrite rev_involutive, rev_app_distr in H.
  simpl in H. eapply lstrip_head, H.
Qed.

Lemma strip_idem (s : str) : strip (strip s) = strip s.
Proof.
  assert (Hl : lstrip (strip s) = strip s).
  { destruct (strip s) as [|c t] eqn:E; [reflexivity|].
    apply lstrip_fixed. eapply strip_head, E. }
  unfold strip at 1. rewrite Hl. unfold strip. apply rstrip_idem.
Qed.

Lemma strip_split (s : str) :
  exists a b, s = a ++ strip s ++ b
              /\ Forall (fun c => isspace c = true) a
              /\ Forall (fun c => isspace c = true) b.
Proof.
  destruct (lstrip_split s) as (a & Ha & Hblank_a).
  destruct (rstrip_split (lstrip s)) as (b & Hb & Hblank_b).
  exists a, b. split; [|auto]. unfold strip. now rewrite <- Hb.
Qed.

Lemma len_strip (s : str) : len (strip s) <= len s.
Proof.
  destruct (strip_split s) as (a & b & Hs & _).
  rewrite Hs at 2. rewrite !len_app.
  pose proof (len_nonneg a). pose proof (len_nonneg b). lia.
Qed.

Lemma strip_app_blank (a s b : str) :
  Forall (fun c => isspace c = true) a ->
  Forall (fun c => isspace c = true) b ->
  strip (a ++ s ++ b) = strip s.
Proof.
  intros Ha Hb. unfold strip. rewrite lstrip_app_blank by exact Ha.
  destruct (lstrip s) as [|h l] eqn:E.
  - apply lstrip_nil_blank in E.
    rewrite lstrip_blank; [reflexivity|]. apply Forall_app. auto.
  - pose proof (lstrip_head _ _ _ E) as Hh.
    destruct (lstrip_split s) as (w & Hw & Hblank). rewrite E in Hw.
    rewrite Hw, <- app_assoc, lstrip_app_blank by exact Hblank.
    simpl. rewrite Hh. change (h :: l ++ b) with ((h :: l) ++ b).
    now apply rstrip_app_blank.
Qed.

(** A stripped text is not empty exactly when the text has a character
    that is not white space. *)
Lemma strip_nonempty_iff (s : str) :
  strip s <> [] <-> Exists (fun c => isspace c = false) s.
Proof.
  split.
  - intros Hne. destruct (strip s) as [|c t] eqn:E; [congruence|].
    pose proof (strip_head _ _ _ E) as Hc.
    destruct (strip_split s) as (a & b & Hs & _). rewrite Hs, E.
    apply Exists_app. right. now constructor.
  - intros Hex Hnil. apply strip_nil_blank in Hnil.
    apply Exists_exists in Hex as (c & Hin & Hc).
    rewrite Forall_forall in Hnil. specialize (Hnil c Hin). congruence.
Qed.

End StripFacts.

(** ** Sentence units *)

Section Units.

Lemma re_split_boundary_last (text : str) :
  Forall (fun p => forall a c b, p = a ++ c :: b -> is_boundary c = true -> b = [])
         (re_split text).
Proof.
  induction text as [|x t IH]; simpl.
  - repeat constructor. intros a c b H. now destruct a.
  - destruct (is_boundary x) eqn:Hx.
    + constructor; [|exact IH]. intros a c b H _.
      destruct a as [|a0 a]; [now injection H|].
      injection H as _ H. now destruct a.
    + destruct (re_split t) as [|p ps]; [repeat constructor|].
      * intros a c b H Hc. destruct a as [|a0 a].
        -- injection H as -> _. congruence.
        -- injection H as _ H. now destruct a.
      * inversion IH as [|? ? Hp Hps]; subst. constructor; [|exact Hps].
        intros a c b H Hc. destruct a as [|a0 a].
        -- injection H as -> _. congruence.
        -- injection H as _ H. eauto.
Qed.

Lemma sentences_from_pieces (text : str) (s : str) :
  In s (sentences text) -> exists p, In p (re_split text) /\ s = strip p /\ s <> [].
Proof.
  unfold sentences. intros H. apply in_map_iff in H as (p & <- & Hp).
  apply filter_In in Hp as [Hp Ht]. exists p. split; [exact Hp|].
  split; [reflexivity | now apply truthy_true].
Qed.

Lemma sentences_stripped (text : str) :
  Forall (fun s => strip s = s) (sentences text).
Proof.
  apply List.Forall_forall. intros s Hs.
  apply sentences_from_pieces in Hs as (p & _ & -> & _). apply strip_idem.
Qed.

Lemma sentences_nonblank (text : str) : Forall nonblank (sentences text).
Proof.
  pose proof (sentences_stripped text) as Hs.
  pose proof (sentences_nonempty text) as Hn.
  rewrite List.Forall_forall in *. intros s Hin.
  apply strip_nonempty_iff. rewrite (Hs s Hin). auto.
Qed.

Lemma pieces_chars (text : str) (p : str) (ch : N) :
  In p (re_split text) -> In ch p -> In ch text.
Proof.
  intros Hp Hch. rewrite <- (re_split_concat text).
  apply in_concat. eauto.
Qed.

Lemma strip_chars (s : str) (ch : N) : In ch (strip s) -> In ch s.
Proof.
  intros H. destruct (strip_split s) as (a & b & Hs & _). rewrite Hs.
  apply in_or_app. right. apply in_or_app. now left.
Qed.

Lemma nonblank_text_has_units (text : str) : strip text <> [] -> sentences text <> [].
Proof.
  intros H. apply strip_nonempty_iff in H. rewrite <- (re_split_concat text) in H.
  unfold sentences. induction (re_split text) as [|p ps IH]; simpl in *.
  - inversion H.
  - apply Exists_app in H as [Hp | Hps].
    + apply strip_nonempty_iff, truthy_true in Hp. rewrite Hp. discriminate.
    + destruct (truthy (strip p)); [discriminate | auto].
Qed.

Lemma len_units_le_pieces (ps : list str) :
  len (join (map strip (List.filter (fun s => truthy (strip s)) ps))) <= len (concat ps).
Proof.
  induction ps as [|p ps IH]; simpl; [reflexivity|].
  rewrite len_app. pose proof (len_strip p). pose proof (len_nonneg p).
  destruct (truthy (strip p)); simpl.
  - unfold join in *. simpl. rewrite len_app. lia.
  - lia.
Qed.

Lemma len_units_le_text (text : str) : len (join (sentences text)) <= len text.
Proof.
  rewrite <- (re_split_concat text) at 2. apply len_units_le_pieces.
Qed.

End Units.

Lemma unit_marks (text : str) (s : str) :
  In s (sentences text) ->
  (forall a c b, s = a ++ c :: b -> is_boundary c = true -> b = [])
  /\ ~ In 10%N s.
Proof.
  intros Hs. apply sentences_from_pieces in Hs as (p & Hp & Hsp & Hne).
  pose proof (re_split_boundary_last text) as Hall.
  rewrite List.Forall_forall in Hall. specialize (Hall p Hp).
  destruct (strip_split p) as (wa & wb & Hsplit & _). rewrite <- Hsp in Hsplit.
  assert (Hlast : forall a c b, s = a ++ c :: b -> is_boundary c = true -> b = []).
  { intros a c b Hs Hc.
    assert (Hb : b ++ wb = []).
    { apply (Hall (wa ++ a) c (b ++ wb)); [|exact Hc].
      rewrite Hsplit, Hs. now rewrite <- !app_assoc. }
    now apply app_nil in Hb as [Hb _]. }
  split; [exact Hlast|].
  intros Hin. apply in_split in Hin as (a & b & Hs).
  assert (b = []) as -> by (eapply Hlast; [exact Hs | reflexivity]).
  rewrite Hsp in Hs. apply strip_last in Hs. discriminate.
Qed.

Lemma unit_line_feed_free (text : str) (s : str) :
  In s (sentences text) -> ~ In 10%N s.
Proof. intros H. now apply unit_marks in H as [_ H]. Qed.

(** In a sentence unit a mark of the split pattern can only be the last
    character, and a line feed does not occur at all. *)
Theorem unit_boundary_only_last (text : str) (s : str) :
  In s (sentences text) ->
  (forall a c b, s = a ++ c :: b -> is_boundary c = true -> b = [])
  /\ ~ In 10%N s.
Proof. apply unit_marks. Qed.

Lemma unit_boundary_only_last_witness :
  (forall a c b, lit "A。" = a ++ c :: b -> is_boundary c = true -> b = [])
  /\ ~ In 10%N (lit "A。").
Proof.
  apply (unit_boundary_only_last [65; 12290; 10; 66; 12290]%N (lit "A。")).
  vm_compute. auto.
Defined.

(** ** More on the segmenter *)

Section SegmenterMore.

Variables chunk_size overlap : Z.

Lemma finish_split (text : str) :
  sentences text <> [] ->
  split_text_into_chunks text chunk_size overlap
  = chunks (run chunk_size overlap (sentences text))
    ++ [join (current_chunk (run chunk_size overlap (sentences text)))].
Proof.
  intros H. rewrite split_nonblank by exact H. now apply finish_run.
Qed.

(** A property of characters that all units have is a property of all
    closed chunks and of the running chunk. *)
Lemma run_chars (Q : N -> Prop) (l : list str) :
  Forall (Forall Q) l ->
  Forall (Forall Q) (chunks (run chunk_size overlap l))
  /\ Forall Q (join (current_chunk (run chunk_size overlap l))).
Proof.
  apply (run_ind chunk_size overlap
           (fun k st => Forall (Forall Q) k ->
                        Forall (Forall Q) (chunks st)
                        /\ Forall Q (join (current_chunk st)))).
  - intros _. split; constructor.
  - intros k s IH Hks. apply Forall_app in Hks as [Hk Hs].
    assert (Hs' : Forall Q s) by now inversion Hs.
    destruct (IH Hk) as [Hclosed Hrun]. clear IH.
    rewrite body_chunks, body_join.
    destruct (must_close chunk_size (run chunk_size overlap k) s).
    + split.
      * apply Forall_app. split; [exact Hclosed | now constructor].
      * apply Forall_app. split; [|exact Hs'].
        unfold overlap_text. destruct (0 <? overlap); [|constructor].
        unfold slice_from_end. now apply Forall_drop.
    + split; [exact Hclosed|]. apply Forall_app. auto.
Qed.

Lemma split_chars (Q : N -> Prop) (text : str) :
  Forall (Forall Q) (sentences text) ->
  Forall (Forall Q) (split_text_into_chunks text chunk_size overlap).
Proof.
  intros H. destruct (sentences text) as [|u us] eqn:E.
  - rewrite split_blank by exact E. constructor.
  - rewrite finish_split by (rewrite E; discriminate). rewrite <- E in H.
    destruct (run_chars Q (sentences text) H) as [Hclosed Hrun].
    apply Forall_app. split; [exact Hclosed | now constructor].
Qed.

(** Every closed chunk has a character that is not white space, and so
    has the running chunk once it is started. *)
Lemma run_nonblank (l : list str) :
  Forall nonblank l ->
  Forall nonblank (chunks (run chunk_size overlap l))
  /\ (current_chunk (run chunk_size overlap l) = []
      \/ nonblank (join (current_chunk (run chunk_size overlap l)))).
Proof.
  apply (run_ind chunk_size overlap
           (fun k st => Forall nonblank k ->
                        Forall nonblank (chunks st)
                        /\ (current_chunk st = [] \/ nonblank (join (current_chunk st))))).
  - intros _. split; [constructor | now left].
  - intros k s IH Hks. apply Forall_app in Hks as [Hk Hs].
    assert (Hs' : nonblank s) by now inversion Hs.
    destruct (IH Hk) as [Hclosed Hrun]. clear IH.
    rewrite body_chunks, body_join.
    assert (Hnew : forall x, nonblank (x ++ s)).
    { intros x. apply Exists_app. now right. }
    destruct (must_close chunk_size (run chunk_size overlap k) s) eqn:Hm.
    + apply andb_true_iff in Hm as [_ Hcur]. apply truthy_true in Hcur.
      destruct Hrun as [Hnil | Hgood]; [congruence|].
      split; [|right; apply Hnew].
      apply Forall_app. split; [exact Hclosed | now constructor].
    + split; [exact Hclosed | right; apply Hnew].
Qed.

(** The closed chunks, and the running one when the loop has started, are
    never more than the units read. *)
Lemma run_count (l : list str) :
  (length (chunks (run chunk_size overlap l))
   + (if truthy (current_chunk (run chunk_size overlap l)) then 1 else 0)
   <= length l)%nat.
Proof.
  apply (run_ind chunk_size overlap
           (fun k st => (length (chunks st)
                         + (if truthy (current_chunk st) then 1 else 0)
                         <= length k)%nat)).
  - simpl. lia.
  - intros k s IH. rewrite body_chunks.
    pose proof (body_current_nonempty chunk_size overlap
                  (run chunk_size overlap k) s) as Hne.
    apply truthy_true in Hne. rewrite Hne.
    destruct (must_close chunk_size (run chunk_size overlap k) s) eqn:Hm.
    + apply andb_true_iff in Hm as [_ Hcur]. rewrite Hcur in IH.
      rewrite !length_app. simpl. lia.
    + rewrite length_app. simpl.
      destruct (truthy (current_chunk (run chunk_size overlap k))); lia.
Qed.

(** Units that fit together are never cut apart. *)
Lemma run_fits (l : list str) :
  len (join l) <= chunk_size ->
  chunks (run chunk_size overlap l) = []
  /\ current_chunk (run chunk_size overlap l) = l.
Proof.
  apply (run_ind chunk_size overlap
           (fun k st => len (join k) <= chunk_size ->
                        chunks st = [] /\ current_chunk st = k)).
  - intros _. split; reflexivity.
  - intros k s IH Hfit. rewrite join_snoc, len_app in Hfit.
    pose proof (len_nonneg s) as Hs.
    destruct IH as [Hch Hcur]; [lia|].
    pose proof (run_length chunk_size overlap k) as Hlen. rewrite Hcur in Hlen.
    unfold loop_body, must_close. rewrite Hlen.
    destruct (Z.ltb_spec chunk_size (len (join k) + len s)); [lia|].
    simpl. split; [exact Hch | now rewrite Hcur].
Qed.

(** Every unit read lies whole in a closed chunk or in the running one. *)
Lemma run_units_kept (l : list str) :
  Forall (fun s => Exists (occurs_whole s) (chunks (run chunk_size overlap l))
                   \/ occurs_whole s (join (current_chunk (run chunk_size overlap l))))
         l.
Proof.
  apply (run_ind chunk_size overlap
           (fun k st => Forall (fun s => Exists (occurs_whole s) (chunks st)
                                         \/ occurs_whole s (join (current_chunk st))) k)).
  - constructor.
  - intros k s IH. rewrite body_chunks, body_join. apply Forall_app. split.
    + eapply Forall_impl; [exact IH|]. intros u [Hclosed | (a & b & Hrun)].
      * left. destruct (must_close chunk_size _ s); [|exact Hclosed].
        apply Exists_app. now left.
      * destruct (must_close chunk_size (run chunk_size overlap k) s).
        -- left. apply Exists_app. right. constructor. now exists a, b.
        -- right. exists a, (b ++ s). rewrite Hrun. now rewrite <- !app_assoc.
    + constructor; [|constructor]. right.
      eexists _, []. now rewrite app_nil_r.
Qed.

End SegmenterMore.

Lemma chunks_of_text_nonblank (text : str) (chunk_size overlap : Z) :
  Forall (fun c => strip c <> []) (split_text_into_chunks text chunk_size overlap).
Proof.
  destruct (sentences text) as [|u us] eqn:E.
  - rewrite split_blank by exact E. constructor.
  - rewrite finish_split by (rewrite E; discriminate).
    destruct (run_nonblank chunk_size overlap (sentences text)
                (sentences_nonblank text)) as [Hclosed Hrun].
    eapply Forall_impl with (P := nonblank);
      [|intros c Hc; now apply strip_nonempty_iff].
    apply Forall_app. split; [exact Hclosed|]. constructor; [|constructor].
    destruct Hrun as [Hnil | Hgood]; [|exact Hgood].
    apply run_current_nonempty in Hnil; [contradiction | rewrite E; discriminate].
Qed.

(** No chunk is empty or blank: each has a character that is not white
    space. *)
Theorem chunks_nonblank (text : str) (chunk_size overlap : Z) :
  Forall (fun c => strip c <> []) (split_text_into_chunks text chunk_size overlap).
Proof. apply chunks_of_text_nonblank. Qed.

(** There are never more chunks than sentence units. *)
Theorem chunk_count_le_units (text : str) (chunk_size overlap : Z) :
  (length (split_text_into_chunks text chunk_size overlap)
   <= length (sentences text))%nat.
Proof.
  destruct (sentences text) as [|u us] eqn:E.
  - rewrite split_blank by exact E. simpl. lia.
  - rewrite finish_split by (rewrite E; discriminate). rewrite <- E.
    pose proof (run_count chunk_size overlap (sentences text)) as H.
    assert (Hne : current_chunk (run chunk_size overlap (sentences text)) <> []).
    { apply run_current_nonempty. rewrite E. discriminate. }
    apply truthy_true in Hne. rewrite Hne in H.
    rewrite length_app. simpl. lia.
Qed.

(** A text that is not blank and has at most [chunk_size] characters gives
    exactly one chunk, its units put end to end, whatever the overlap. *)
Theorem short_text_single_chunk (text : str) (chunk_size overlap : Z) :
  strip text <> [] ->
  len text <= chunk_size ->
  split_text_into_chunks text chunk_size overlap = [join (sentences text)].
Proof.
  intros Hne Hlen.
  rewrite finish_split by now apply nonblank_text_has_units.
  pose proof (len_units_le_text text) as Hu.
  destruct (run_fits chunk_size overlap (sentences text)) as [Hch Hcur]; [lia|].
  now rewrite Hch, Hcur.
Qed.

Lemma short_text_single_chunk_witness :
  split_text_into_chunks (lit "A。 B。") 6 2 = [join (sentences (lit "A。 B。"))].
Proof.
  apply (short_text_single_chunk (lit "A。 B。") 6 2).
  - vm_compute. discriminate.
  - vm_compute. discriminate.
Defined.

Lemma fold_left_pointwise {A B} (f g : A -> B -> A) (l : list B) (a : A) :
  (forall x y, f x y = g x y) -> fold_left f l a = fold_left g l a.
Proof.
  intros H. revert a. induction l as [|y l IH]; intros a; simpl; [reflexivity|].
  now rewrite H, IH.
Qed.

Lemma loop_body_nonpositive (chunk_size overlap : Z) (st : loop_state) (s : str) :
  overlap <= 0 -> loop_body chunk_size overlap st s = loop_body chunk_size 0 st s.
Proof.
  intros H. unfold loop_body, close_chunk.
  rewrite (overlap_text_nonpos overlap) by exact H.
  now rewrite (overlap_text_nonpos 0) by lia.
Qed.

(** An overlap that is zero or negative carries nothing over: the result
    is that of [overlap = 0]. *)
Theorem nonpositive_overlap_as_zero (text : str) (chunk_size overlap : Z) :
  overlap <= 0 ->
  split_text_into_chunks text chunk_size overlap
  = split_text_into_chunks text chunk_size 0.
Proof.
  intros H. unfold split_text_into_chunks, run.
  rewrite (fold_left_pointwise (loop_body chunk_size overlap) (loop_body chunk_size 0));
    [reflexivity|].
  intros st s. now apply loop_body_nonpositive.
Qed.

Lemma nonpositive_overlap_as_zero_witness :
  split_text_into_chunks (lit "A。B。") 3 (-7) = split_text_into_chunks (lit "A。B。") 3 0.
Proof. apply (nonpositive_overlap_as_zero (lit "A。B。") 3 (-7)). lia. Defined.

(** Every sentence unit lies whole, as one contiguous piece, in some
    chunk: no unit is dropped and none is cut in two. *)
Theorem every_unit_in_a_chunk (text : str) (chunk_size overlap : Z) :
  Forall (fun s => Exists (occurs_whole s)
                     (split_text_into_chunks text chunk_size overlap))
         (sentences text).
Proof.
  destruct (sentences text) as [|u us] eqn:E; [constructor|].
  rewrite <- E. rewrite finish_split by (rewrite E; discriminate).
  eapply Forall_impl; [apply (run_units_kept chunk_size overlap)|].
  intros s [Hclosed | Hrun]; apply Exists_app; [now left|].
  right. now constructor.
Qed.

(** Every character of a chunk is a character of the text, and none is a
    line feed. *)
Theorem chunk_chars_from_text (text : str) (chunk_size overlap : Z) :
  Forall (Forall (fun ch => In ch text /\ ch <> 10%N))
         (split_text_into_chunks text chunk_size overlap).
Proof.
  apply split_chars. apply List.Forall_forall. intros s Hs.
  apply List.Forall_forall. intros ch Hch. split.
  - apply sentences_from_pieces in Hs as (p & Hp & -> & _).
    eapply pieces_chars; [exact Hp|]. now apply strip_chars.
  - intros ->. now apply unit_line_feed_free in Hs.
Qed.

(** ** Cleaning *)

Section Cleaning.

Variable cls : N -> bool.

Lemma sub_runs_chars (Q : N -> Prop) (repl : str) (b : bool) (t : str) :
  Forall Q repl -> Forall Q t -> Forall Q (sub_runs cls repl b t).
Proof.
  intros Hr Ht. revert b. induction Ht as [|c t Hc _ IH]; intros b; simpl;
    [constructor|].
  destruct (cls c); [|now constructor].
  destruct b; [apply IH|]. apply Forall_app. split; [exact Hr | apply IH].
Qed.

Lemma len_sub_runs (r : N) (b : bool) (t : str) : len (sub_runs cls [r] b t) <= len t.
Proof.
  revert b. induction t as [|c t IH]; intros b; simpl; [reflexivity|].
  unfold len in *. simpl.
  destruct (cls c); [destruct b|]; simpl; specialize (IH true) as IHt;
    specialize (IH false) as IHf; lia.
Qed.

(** What a substitution leaves is settled for its own class when the
    replacement is of the class, and free of the class when it is not. *)
Lemma sub_runs_settled (r : N) (b : bool) (t : str) :
  cls r = true -> settled cls r b (sub_runs cls [r] b t).
Proof.
  intros Hr. revert b. induction t as [|c t IH]; intros b; simpl; [exact I|].
  destruct (cls c) eqn:Hc.
  - destruct b; [apply IH|]. simpl. rewrite Hr. auto.
  - simpl. rewrite Hc. apply IH.
Qed.

Lemma sub_runs_free (r : N) (b : bool) (t : str) :
  cls r = false -> Forall (fun c => cls c = false) (sub_runs cls [r] b t).
Proof.
  intros Hr. revert b. induction t as [|c t IH]; intros b; simpl; [constructor|].
  destruct (cls c) eqn:Hc; [|now constructor].
  destruct b; [apply IH|]. simpl. constructor; [exact Hr | apply IH].
Qed.

Lemma free_settled (r : N) (b : bool) (t : str) :
  Forall (fun c => cls c = false) t -> settled cls r b t.
Proof.
  intros H. revert b. induction H as [|c t Hc _ IH]; intros b; simpl; [exact I|].
  rewrite Hc. apply IH.
Qed.

(** A settled text is left as it is by the substitution. *)
Lemma sub_runs_fixed (r : N) (t : str) :
  settled cls r false t -> sub_runs cls [r] false t = t.
Proof.
  assert (H : forall b, settled cls r b t ->
                        sub_runs cls [r] false t = t
                        /\ (b = true -> forall c u, t = c :: u -> cls c = false)).
  { induction t as [|c t IH]; intros b Hs; simpl in *.
    - split; [reflexivity | discriminate].
    - destruct (cls c) eqn:Hc.
      + destruct Hs as (-> & -> & Hs). destruct (IH true Hs) as [Hfix Hhead].
        split; [|discriminate]. simpl. f_equal.
        destruct t as [|d t]; [reflexivity|].
        simpl in *. rewrite (Hhead eq_refl d t eq_refl) in *.
        now injection Hfix as ->.
      + destruct (IH false Hs) as [Hfix _]. split; [now rewrite Hfix|].
        intros _ c' u Heq. now injection Heq as <- _. }
  intros Hs. now apply (H false).
Qed.

Lemma settled_weaken (r : N) (b : bool) (t : str) :
  settled cls r b t -> settled cls r false t.
Proof.
  destruct t as [|c t]; simpl; [auto|].
  destruct (cls c); [|auto]. intros (-> & -> & H). auto.
Qed.

Lemma settled_app_l (r : N) (b : bool) (t u : str) :
  settled cls r b (t ++ u) -> settled cls r b t.
Proof.
  revert b. induction t as [|c t IH]; intros b; simpl; [auto|].
  destruct (cls c); [|apply IH]. intros (-> & -> & H). eauto.
Qed.

Lemma settled_app_r (r : N) (b : bool) (t u : str) :
  settled cls r b (t ++ u) -> settled cls r false u.
Proof.
  revert b. induction t as [|c t IH]; intros b; simpl.
  - apply settled_weaken.
  - destruct (cls c); [|apply IH]. intros (_ & _ & H). eauto.
Qed.

Lemma settled_strip (r : N) (t : str) :
  settled cls r false t -> settled cls r false (strip t).
Proof.
  intros H. destruct (strip_split t) as (a & b & Ht & _). rewrite Ht in H.
  apply settled_app_r in H. now apply settled_app_l in H.
Qed.

End Cleaning.

Section CleanText.

Variable cls : N -> bool.

Lemma is_line_feed_true (c : N) : is_line_feed c = true <-> c = 10%N.
Proof. unfold is_line_feed. apply N.eqb_eq. Qed.

Lemma settled_class_char (r : N) (b : bool) (t : str) :
  settled cls r b t -> Forall (fun c => cls c = true -> c = r) t.
Proof.
  revert b. induction t as [|c t IH]; intros b; simpl; [constructor|].
  destruct (cls c) eqn:Hc.
  - intros (-> & _ & H). constructor; eauto.
  - intros H. constructor; [congruence | eauto].
Qed.

(** Collapsing line feeds keeps a text settled for a class that does not
    hold the line feed. *)
Lemma line_feed_pass_settled (r : N) (b b' : bool) (t : str) :
  cls 10%N = false ->
  settled cls r b t ->
  settled cls r (if b' then false else b) (sub_runs is_line_feed nl b' t).
Proof.
  intros Hlf. revert b b'. induction t as [|c t IH]; intros b b' Hs; simpl;
    [exact I|].
  destruct (is_line_feed c) eqn:Hc.
  - apply is_line_feed_true in Hc. subst c. simpl in Hs. rewrite Hlf in Hs.
    destruct b'.
    + apply (IH false true Hs).
    + simpl. rewrite Hlf. apply (IH false true Hs).
  - simpl in *. destruct (cls c).
    + destruct Hs as (-> & -> & Hs). split; [reflexivity|].
      split; [now destruct b'|]. apply (IH true false Hs).
    + apply (IH false false Hs).
Qed.

Lemma first_pass_settled (text : str) :
  settled cls 32%N false (re_sub_plus cls [32%N] text).
Proof.
  unfold re_sub_plus. destruct (cls 32%N) eqn:Hsp.
  - now apply sub_runs_settled.
  - apply free_settled. now apply sub_runs_free.
Qed.

Lemma second_pass_settled (text : str) :
  settled cls 32%N false
    (re_sub_plus is_line_feed nl (re_sub_plus cls [32%N] text)).
Proof.
  pose proof (first_pass_settled text) as H1.
  destruct (cls 10%N) eqn:Hlf.
  - assert (Hfree : Forall (fun c => is_line_feed c = false)
                      (re_sub_plus cls [32%N] text)).
    { eapply Forall_impl; [apply (settled_class_char _ _ _ H1)|].
      intros c Hc. simpl in Hc. destruct (is_line_feed c) eqn:E; [|reflexivity].
      apply is_line_feed_true in E. subst c. specialize (Hc Hlf). discriminate. }
    unfold re_sub_plus at 1. unfold nl.
    rewrite sub_runs_fixed; [exact H1|]. now apply free_settled.
  - apply (line_feed_pass_settled 32 false false _ Hlf H1).
Qed.

Lemma clean_text_settled (text : str) :
  settled cls 32%N false (clean_text_with cls text)
  /\ settled is_line_feed 10%N false (clean_text_with cls text).
Proof.
  unfold clean_text_with. change (lit " ") with [32%N]. cbv zeta. split.
  - apply settled_strip, second_pass_settled.
  - apply settled_strip. unfold re_sub_plus at 1. now apply sub_runs_settled.
Qed.

Lemma settled_no_double (b : bool) (t : str) :
  settled is_line_feed 10%N b t -> double_line_feed t = false.
Proof.
  revert b. induction t as [|c t IH]; intros b Hs; [reflexivity|].
  destruct t as [|d t]; [reflexivity|].
  change (((c =? 10)%N && (d =? 10)%N || double_line_feed (d :: t)) = false).
  simpl in Hs. unfold is_line_feed in Hs at 1.
  destruct (c =? 10)%N eqn:Hc.
  - destruct Hs as (_ & _ & Hs). rewrite (IH true Hs). simpl in Hs.
    unfold is_line_feed in Hs at 1.
    destruct (d =? 10)%N; [|reflexivity]. now destruct Hs as (_ & ? & _).
  - now rewrite (IH false Hs).
Qed.

Lemma double_line_feed_found (a b : str) :
  double_line_feed (a ++ 10%N :: 10%N :: b) = true.
Proof.
  induction a as [|c a IH]; [reflexivity|].
  change (double_line_feed (c :: (a ++ 10%N :: 10%N :: b)) = true).
  destruct (a ++ 10%N :: 10%N :: b) as [|d u] eqn:E; [now destruct a|].
  change (((c =? 10)%N && (d =? 10)%N || double_line_feed (d :: u)) = true).
  rewrite IH. apply orb_true_r.
Qed.

End CleanText.

(** Cleaning a cleaned text changes nothing; this holds for [clean_text]
    and for any character class in the place of the one its first pattern
    names. *)
Theorem clean_text_idempotent (cls : N -> bool) (text : str) :
  clean_text_with cls (clean_text_with cls text) = clean_text_with cls text.
Proof.
  destruct (clean_text_settled cls text) as [Hcls Hlf].
  set (c := clean_text_with cls text) in *.
  unfold clean_text_with at 1. change (lit " ") with [32%N]. cbv zeta.
  unfold re_sub_plus, nl. rewrite (sub_runs_fixed cls 32 c Hcls).
  rewrite (sub_runs_fixed is_line_feed 10 c Hlf).
  unfold c, clean_text_with. apply strip_idem.
Qed.

(** A cleaned text has no white space at either end and never two line
    feeds in a row, for [clean_text] and for any class in the place of its
    first pattern's. *)
Theorem clean_text_tidy (cls : N -> bool) (text : str) :
  strip (clean_text_with cls text) = clean_text_with cls text
  /\ forall a b, clean_text_with cls text <> a ++ 10%N :: 10%N :: b.
Proof.
  split; [apply strip_idem|]. intros a b H.
  destruct (clean_text_settled cls text) as [_ Hlf].
  apply settled_no_double in Hlf. rewrite H, double_line_feed_found in Hlf.
  discriminate.
Qed.

(** A cleaned text is never longer than the text, and a blank text is
    cleaned to the empty text, for [clean_text] and for any class in the
    place of its first pattern's. *)
Theorem clean_text_never_longer (cls : N -> bool) (text : str) :
  len (clean_text_with cls text) <= len text
  /\ (Forall (fun c => isspace c = true) text -> clean_text_with cls text = []).
Proof.
  unfold clean_text_with. change (lit " ") with [32%N]. cbv zeta.
  unfold re_sub_plus, nl. split.
  - pose proof (len_strip (sub_runs is_line_feed [10%N] false
                             (sub_runs cls [32%N] false text))).
    pose proof (len_sub_runs is_line_feed 10 false (sub_runs cls [32%N] false text)).
    pose proof (len_sub_runs cls 32 false text). lia.
  - intros Hblank. apply strip_blank.
    apply sub_runs_chars; [repeat constructor|].
    apply sub_runs_chars; [repeat constructor | exact Hblank].
Qed.

Example clean_text_example :
  clean_text [32; 97; 10; 10; 10; 98; 32; 10]%N = [97; 10; 98]%N.
Proof. vm_compute. reflexivity. Qed.

(** ** The loaders *)

Section LoaderFacts.

Lemma split_default_blank (text : str) :
  truthy (strip text) = false -> split_text_into_chunks_default text = [].
Proof.
  intros H. unfold split_text_into_chunks_default, split_text_into_chunks.
  now rewrite H.
Qed.

Lemma split_default_nonblank (text : str) :
  strip text <> [] -> split_text_into_chunks_default text <> [].
Proof.
  intros H. unfold split_text_into_chunks_default.
  rewrite finish_split by now apply nonblank_text_has_units.
  intros Hnil. now apply app_nil in Hnil as [_ Hnil].
Qed.

Lemma split_default_pieces_nonblank (text piece : str) :
  In piece (split_text_into_chunks_default text) -> strip piece <> [].
Proof.
  intros H.
  pose proof (chunks_of_text_nonblank text Config.CHUNK_SIZE Config.CHUNK_OVERLAP) as Hall.
  rewrite List.Forall_forall in Hall. now apply Hall.
Qed.

Lemma pdf_chunk_fields (filename : str) (n : nat) (piece : str) :
  pdf_chunk filename n piece !! "text"%string = Some piece
  /\ pdf_chunk filename n piece !! "source"%string = Some (pdf_source filename n)
  /\ pdf_chunk filename n piece !! "page"%string = Some (str_of_nat n).
Proof.
  unfold pdf_chunk. split; [|split].
  - now rewrite lookup_insert_eq.
  - rewrite lookup_insert_ne by discriminate. now rewrite lookup_insert_eq.
  - rewrite lookup_insert_ne by discriminate.
    rewrite lookup_insert_ne by discriminate. now rewrite lookup_singleton_eq.
Qed.

Lemma web_chunk_fields (url piece : str) :
  web_chunk url piece !! "text"%string = Some piece
  /\ web_chunk url piece !! "source"%string = Some url
  /\ web_chunk url piece !! "page"%string = None.
Proof.
  unfold web_chunk. split; [|split].
  - now rewrite lookup_insert_eq.
  - rewrite lookup_insert_ne by discriminate. now rewrite lookup_singleton_eq.
  - rewrite lookup_insert_ne by discriminate. now rewrite lookup_singleton_ne.
Qed.

(** The loop over the pages adds, page after page, the chunks of the page
    under its number. *)
Lemma pdf_fold (filename : str) (pages : list str) (start : nat) (acc : list chunk) :
  fold_left (page_step filename) (enumerate_from start pages) acc
  = acc ++ concat (imap (fun i text =>
                           map (pdf_chunk filename (start + i))
                               (split_text_into_chunks_default text)) pages).
Proof.
  revert start acc. induction pages as [|text pages IH]; intros start acc; simpl.
  - now rewrite app_nil_r.
  - rewrite IH. unfold page_step. simpl. rewrite Nat.add_0_r.
    assert (Hext : imap (fun i text0 =>
                           map (pdf_chunk filename (S (start + i)))
                               (split_text_into_chunks_default text0)) pages
                   = imap ((fun i text0 =>
                              map (pdf_chunk filename (start + i))
                                  (split_text_into_chunks_default text0)) ∘ S) pages).
    { apply imap_ext. intros i x _. simpl. do 2 f_equal. lia. }
    rewrite Hext. destruct (truthy (strip text)) eqn:Ht.
    + now rewrite <- app_assoc.
    + now rewrite (split_default_blank text Ht).
Qed.

Lemma load_pdf_returned (pages : list str) (filename : str) :
  load_pdf (Returned pages) filename
  = Returned (concat (imap (fun i text =>
                              map (pdf_chunk filename (S i))
                                  (split_text_into_chunks_default text)) pages)).
Proof. unfold load_pdf. now rewrite pdf_fold. Qed.

Lemma in_pdf_chunks (pages : list str) (filename : str) (c : chunk) :
  In c (concat (imap (fun i text =>
                        map (pdf_chunk filename (S i))
                            (split_text_into_chunks_default text)) pages))
  <-> exists (n : nat) text piece,
        pages !! n = Some text
        /\ In piece (split_text_into_chunks_default text)
        /\ c = pdf_chunk filename (S n) piece.
Proof.
  rewrite in_concat. split.
  - intros (l & Hl & Hc). apply list_elem_of_In, list_elem_of_lookup in Hl as (n & Hn).
    rewrite list_lookup_imap in Hn.
    destruct (pages !! n) as [text|] eqn:E; [|discriminate]. simpl in Hn.
    injection Hn as <-. apply in_map_iff in Hc as (piece & <- & Hp). eauto 6.
  - intros (n & text & piece & Hn & Hp & ->).
    exists (map (pdf_chunk filename (S n)) (split_text_into_chunks_default text)).
    split; [|now apply in_map].
    apply list_elem_of_In, list_elem_of_lookup. exists n.
    rewrite list_lookup_imap, Hn. reflexivity.
Qed.

End LoaderFacts.

(** ** The summary *)

Section SummaryFacts.

Lemma summary_sources_elem (cs : list chunk) (label : str) :
  label ∈ sources (get_document_summary cs)
  <-> exists c, In c cs /\ chunk_source c = label.
Proof.
  unfold get_document_summary. rewrite summary_fold. simpl.
  rewrite elem_of_elements, elem_of_union, elem_of_list_to_set, list_elem_of_fmap.
  split.
  - intros [Hemp | (c & -> & Hc)]; [now apply elem_of_empty in Hemp|].
    apply list_elem_of_In in Hc. eauto.
  - intros (c & Hc & <-). right. apply list_elem_of_In in Hc. eauto.
Qed.

Lemma summary_sources_nodup (cs : list chunk) :
  NoDup (sources (get_document_summary cs)).
Proof. unfold get_document_summary. simpl. apply NoDup_elements. Qed.

Lemma summary_chars (cs : list chunk) :
  total_chars (get_document_summary cs)
  = foldr Z.add 0 (map (fun c => len (chunk_text c)) cs).
Proof. unfold get_document_summary. rewrite summary_fold. simpl. lia. Qed.

Lemma pdf_chunk_source (filename : str) (n : nat) (piece : str) :
  chunk_source (pdf_chunk filename n piece) = pdf_source filename n.
Proof.
  unfold chunk_source. destruct (pdf_chunk_fields filename n piece) as (_ & -> & _).
  reflexivity.
Qed.

Lemma web_chunk_source (url piece : str) : chunk_source (web_chunk url piece) = url.
Proof.
  unfold chunk_source. destruct (web_chunk_fields url piece) as (_ & -> & _).
  reflexivity.
Qed.

End SummaryFacts.

(** The summary of two lists put together adds the counts and the
    characters and lists the sources of both. *)
Theorem summary_of_app (xs ys : list chunk) :
  total_chunks (get_document_summary (xs ++ ys))
  = total_chunks (get_document_summary xs) + total_chunks (get_document_summary ys)
  /\ total_chars (get_document_summary (xs ++ ys))
     = total_chars (get_document_summary xs) + total_chars (get_document_summary ys)
  /\ forall label : str,
       label ∈ sources (get_document_summary (xs ++ ys))
       <-> label ∈ sources (get_document_summary xs)
           \/ label ∈ sources (get_document_summary ys).
Proof.
  split; [|split].
  - unfold get_document_summary. simpl. apply len_app.
  - rewrite !summary_chars, map_app, foldr_app.
    generalize (foldr Z.add 0 (map (fun c => len (chunk_text c)) ys)).
    induction xs as [|x xs IH]; intros z; simpl; [lia|]. rewrite IH. lia.
  - intros label. rewrite !summary_sources_elem. split.
    + intros (c & Hc & Hl). apply in_app_or in Hc as [Hc | Hc]; eauto.
    + intros [(c & Hc & Hl) | (c & Hc & Hl)]; exists c;
        (split; [apply in_or_app; auto | exact Hl]).
Qed.

(** There are never more sources than chunks, and there is no source
    exactly when there is no chunk. *)
Theorem summary_sources_bounded (cs : list chunk) :
  (length (sources (get_document_summary cs)) <= length cs)%nat
  /\ (sources (get_document_summary cs) = [] <-> cs = []).
Proof.
  split.
  - rewrite <- (length_map chunk_source cs).
    apply NoDup_incl_length; [apply NoDup_ListNoDup, summary_sources_nodup|].
    intros label Hl. apply list_elem_of_In, summary_sources_elem in Hl
      as (c & Hc & <-). now apply in_map.
  - split.
    + intros Hnil. destruct cs as [|c cs]; [reflexivity|].
      assert (H : chunk_source c ∈ sources (get_document_summary (c :: cs))).
      { apply summary_sources_elem. exists c. split; [now left | reflexivity]. }
      rewrite Hnil in H. now apply elem_of_nil in H.
    + intros ->. reflexivity.
Qed.

(** The chunks of a PDF come page by page, in page order, each page's
    chunks in their order and under the number of the page, which counts
    from 1 and counts the blank pages too. *)
Theorem load_pdf_page_by_page (pages : list str) (filename : str) :
  load_pdf (Returned pages) filename
  = Returned (concat (imap (fun i text =>
                              map (pdf_chunk filename (S i))
                                  (split_text_into_chunks_default text)) pages)).
Proof. apply load_pdf_returned. Qed.

(** Every chunk loaded from a PDF has the keys ["text"], ["source"] and
    ["page"]: its text is a chunk, not blank, of a page that is not blank,
    and its source and page carry the number of that page. *)
Theorem load_pdf_chunk_fields (pages : list str) (filename : str)
    (cs : list chunk) (c : chunk) :
  load_pdf (Returned pages) filename = Returned cs ->
  In c cs ->
  exists (n : nat) text piece,
    pages !! n = Some text
    /\ strip text <> []
    /\ In piece (split_text_into_chunks_default text)
    /\ strip piece <> []
    /\ c !! "text"%string = Some piece
    /\ c !! "source"%string = Some (pdf_source filename (S n))
    /\ c !! "page"%string = Some (str_of_nat (S n)).
Proof.
  rewrite load_pdf_returned. intros H Hc. injection H as <-.
  apply in_pdf_chunks in Hc as (n & text & piece & Hn & Hp & ->).
  exists n, text, piece. split; [exact Hn|]. split.
  - intros Hblank. apply truthy_false in Hblank.
    rewrite (split_default_blank text Hblank) in Hp. inversion Hp.
  - split; [exact Hp|]. split; [eapply split_default_pieces_nonblank, Hp|].
    apply pdf_chunk_fields.
Qed.

Lemma load_pdf_chunk_fields_witness :
  exists (n : nat) text piece,
    [lit " "; lit "A。"] !! n = Some text
    /\ strip text <> []
    /\ In piece (split_text_into_chunks_default text)
    /\ strip piece <> []
    /\ pdf_chunk (lit "a.pdf") 2 (lit "A。") !! "text"%string = Some piece
    /\ pdf_chunk (lit "a.pdf") 2 (lit "A。") !! "source"%string
       = Some (pdf_source (lit "a.pdf") (S n))
    /\ pdf_chunk (lit "a.pdf") 2 (lit "A。") !! "page"%string = Some (str_of_nat (S n)).
Proof.
  apply (load_pdf_chunk_fields [lit " "; lit "A。"] (lit "a.pdf")
           [pdf_chunk (lit "a.pdf") 2 (lit "A。")]).
  - vm_compute. reflexivity.
  - now left.
Defined.

(** A PDF with no page, or with blank pages only, loads as the empty list
    and raises nothing. *)
Theorem load_pdf_blank_document (pages : list str) (filename : str) :
  Forall (fun text => Forall (fun c => isspace c = true) text) pages ->
  load_pdf (Returned pages) filename = Returned [].
Proof.
  intros H. rewrite load_pdf_returned. f_equal.
  destruct (concat _) as [|c cs] eqn:E; [reflexivity|].
  assert (Hc : In c (c :: cs)) by now left. rewrite <- E in Hc.
  apply in_pdf_chunks in Hc as (n & text & piece & Hn & Hp & _).
  rewrite List.Forall_forall in H.
  assert (Hblank : Forall (fun c => isspace c = true) text).
  { apply H. apply list_elem_of_In, list_elem_of_lookup. eauto. }
  apply strip_blank, truthy_false in Hblank.
  rewrite (split_default_blank text Hblank) in Hp. inversion Hp.
Qed.

Lemma load_pdf_blank_document_witness :
  load_pdf (Returned [lit " "; []; [10; 9]%N]) (lit "scan.pdf") = Returned [].
Proof.
  apply (load_pdf_blank_document [lit " "; []; [10; 9]%N] (lit "scan.pdf")).
  repeat constructor.
Defined.

(** The summary of a loaded PDF lists as sources exactly the labels of the
    pages that are not blank. *)
Theorem load_pdf_summary_sources (pages : list str) (filename : str)
    (cs : list chunk) (label : str) :
  load_pdf (Returned pages) filename = Returned cs ->
  (label ∈ sources (get_document_summary cs)
   <-> exists (n : nat) text,
         pages !! n = Some text /\ strip text <> []
         /\ label = pdf_source filename (S n)).
Proof.
  rewrite load_pdf_returned. intros H. injection H as <-.
  rewrite summary_sources_elem. split.
  - intros (c & Hc & <-).
    apply in_pdf_chunks in Hc as (n & text & piece & Hn & Hp & ->).
    exists n, text. split; [exact Hn|]. split; [|apply pdf_chunk_source].
    intros Hblank. apply truthy_false in Hblank.
    rewrite (split_default_blank text Hblank) in Hp. inversion Hp.
  - intros (n & text & Hn & Hne & ->).
    destruct (split_text_into_chunks_default text) as [|piece ps] eqn:E;
      [now apply split_default_nonblank in Hne|].
    exists (pdf_chunk filename (S n) piece). split; [|apply pdf_chunk_source].
    apply in_pdf_chunks. exists n, text, piece. rewrite E. repeat split; auto.
    now left.
Qed.

Lemma load_pdf_summary_sources_witness :
  pdf_source (lit "a.pdf") 2
    ∈ sources (get_document_summary [pdf_chunk (lit "a.pdf") 2 (lit "A。")])
  <-> exists (n : nat) text,
        [lit " "; lit "A。"] !! n = Some text /\ strip text <> []
        /\ pdf_source (lit "a.pdf") 2 = pdf_source (lit "a.pdf") (S n).
Proof.
  apply (load_pdf_summary_sources [lit " "; lit "A。"] (lit "a.pdf")).
  vm_compute. reflexivity.
Defined.

(** Every chunk loaded from a web page has its text, not blank, under
    ["text"], the URL under ["source"], and no ["page"] key. *)
Theorem load_web_chunk_fields (page : fetched) (url : str)
    (cs : list chunk) (c : chunk) :
  load_web page url = Returned cs ->
  In c cs ->
  (exists piece, c !! "text"%string = Some piece /\ strip piece <> [])
  /\ c !! "source"%string = Some url
  /\ c !! "page"%string = None.
Proof.
  destruct page as [text | e | e]; simpl; [|discriminate..].
  intros H Hc. injection H as <-.
  apply in_map_iff in Hc as (piece & <- & Hp).
  destruct (web_chunk_fields url piece) as (Ht & Hs & Hpg).
  split; [|auto]. exists piece. split; [exact Ht|].
  eapply split_default_pieces_nonblank, Hp.
Qed.

Lemma load_web_chunk_fields_witness :
  (exists piece, web_chunk (lit "http://x") (lit "A。") !! "text"%string = Some piece
                 /\ strip piece <> [])
  /\ web_chunk (lit "http://x") (lit "A。") !! "source"%string = Some (lit "http://x")
  /\ web_chunk (lit "http://x") (lit "A。") !! "page"%string = None.
Proof.
  apply (load_web_chunk_fields (Extracted (lit "A。")) (lit "http://x")
           [web_chunk (lit "http://x") (lit "A。")]).
  - vm_compute. reflexivity.
  - now left.
Defined.

(** The summary of a loaded web page has the URL as its only source when
    the page gave a chunk, and no source when it gave none. *)
Theorem load_web_summary_sources (page : fetched) (url : str) (cs : list chunk) :
  load_web page url = Returned cs ->
  sources (get_document_summary cs) = if truthy cs then [url] else [].
Proof.
  destruct page as [text | e | e]; simpl; [|discriminate..].
  intros H. injection H as <-.
  destruct (split_text_into_chunks_default (clean_text text)) as [|piece ps];
    [reflexivity|].
  set (cs0 := map (web_chunk url) (piece :: ps)).
  assert (Hset : (fold_left summary_step cs0 (∅, 0)).1 = ({[ url ]} : gset str)).
  { rewrite summary_fold. cbn [fst]. apply set_eq. intros x.
    rewrite elem_of_union, elem_of_list_to_set, elem_of_singleton.
    change (map chunk_source cs0) with (chunk_source <$> cs0).
    rewrite list_elem_of_fmap. split.
    - intros [Hemp | (c & -> & Hc)]; [now apply elem_of_empty in Hemp|].
      apply list_elem_of_In in Hc. unfold cs0 in Hc.
      apply in_map_iff in Hc as (q & <- & _). apply web_chunk_source.
    - intros ->. right. exists (web_chunk url piece).
      split; [now rewrite web_chunk_source|].
      apply list_elem_of_In. now left. }
  unfold get_document_summary. cbn [sources truthy]. fold cs0.
  rewrite Hset. apply elements_singleton.
Qed.

Lemma load_web_summary_sources_witness :
  sources (get_document_summary [web_chunk (lit "http://x") (lit "A。")])
  = if truthy [web_chunk (lit "http://x") (lit "A。")] then [lit "http://x"] else [].
Proof.
  apply (load_web_summary_sources (Extracted (lit "A。")) (lit "http://x")).
  vm_compute. reflexivity.
Defined.

(** ** The API key *)

Lemma valid_key_has_length (k : str) :
  is_api_key_valid (Some k) = true -> 30 <= len k.
Proof.
  simpl. intros H. apply Z.leb_le in H. pose proof (len_strip k). lia.
Qed.

(** A valid key is present, and at least 30 of its characters remain once
    the white space around it is removed; so it has at least 30 characters
    and is not blank. *)
Theorem valid_key_long_enough (api_key : option str) :
  is_api_key_valid api_key = true ->
  exists k, api_key = Some k /\ 30 <= len (strip k) /\ 30 <= len k /\ strip k <> [].
Proof.
  destruct api_key as [k|]; simpl; [|discriminate].
  intros H. apply Z.leb_le in H. exists k. split; [reflexivity|].
  pose proof (len_strip k). split; [exact H|]. split; [lia|].
  intros Hnil. rewrite Hnil, len_nil in H. lia.
Qed.

Lemma valid_key_long_enough_witness :
  exists k, Some (replicate 39 65%N) = Some k /\ 30 <= len (strip k)
            /\ 30 <= len k /\ strip k <> [].
Proof.
  apply (valid_key_long_enough (Some (replicate 39 65%N))).
  vm_compute. reflexivity.
Defined.

(** White space before and after a key does not count: the padded key is
    valid exactly when the key is. *)
Theorem key_padding_ignored (a k b : str) :
  Forall (fun c => isspace c = true) a ->
  Forall (fun c => isspace c = true) b ->
  is_api_key_valid (Some (a ++ k ++ b)) = is_api_key_valid (Some k).
Proof.
  intros Ha Hb. unfold is_api_key_valid. now rewrite strip_app_blank.
Qed.

Lemma key_padding_ignored_witness :
  is_api_key_valid (Some (lit "  " ++ replicate 29 65%N ++ [10%N]))
  = is_api_key_valid (Some (replicate 29 65%N)).
Proof.
  apply (key_padding_ignored (lit "  ") (replicate 29 65%N) [10%N]);
    repeat constructor.
Defined.

(** The flag of the status is the validity of the stored key: false when
    the secrets cannot be read, when the key is absent and when it is too
    short. *)
Theorem api_key_status_flag (secrets : outcome (gmap string str)) :
  (get_api_key_status secrets).1 = is_api_key_valid (get_api_key secrets)
  /\ ((get_api_key_status secrets).1 = false ->
      (get_api_key_status secrets).2 = KEY_MISSING
      \/ (get_api_key_status secrets).2 = KEY_MALFORMED).
Proof.
  unfold get_api_key_status.
  destruct (get_api_key secrets) as [k|].
  - destruct (is_api_key_valid (Some k)); cbn [negb fst snd].
    + split; [reflexivity | intros H; discriminate H].
    + split; [reflexivity | intros _; right; reflexivity].
  - split; [reflexivity | intros _; left; reflexivity].
Qed.

(** The message for a valid key shows the first four and the last four
    characters of the key around three dots, eleven characters whatever
    the length of the key, and nothing else of the key. *)
Theorem api_key_status_mask (secrets : outcome (gmap string str)) (k : str) :
  get_api_key secrets = Some k ->
  is_api_key_valid (Some k) = true ->
  get_api_key_status secrets
  = (true, KEY_SET ++ take 4 k ++ lit "..." ++ drop (length k - 4) k)
  /\ len (take 4 k ++ lit "..." ++ drop (length k - 4) k) = 11.
Proof.
  intros Hk Hv. unfold get_api_key_status. rewrite Hk, Hv. simpl negb. cbv iota.
  apply valid_key_has_length in Hv.
  unfold masked_key. rewrite slice_from_end_long by lia.
  split; [reflexivity|].
  rewrite !len_app. unfold len in *. rewrite length_take, length_drop.
  change (length (lit "...")) with 3%nat. lia.
Qed.

Lemma api_key_status_mask_witness :
  get_api_key_status (Returned {[ "GOOGLE_API_KEY"%string := replicate 39 65%N ]})
  = (true, KEY_SET ++ take 4 (replicate 39 65%N) ++ lit "..."
                   ++ drop (length (replicate 39 65%N) - 4) (replicate 39 65%N))
  /\ len (take 4 (replicate 39 65%N) ++ lit "..."
            ++ drop (length (replicate 39 65%N) - 4) (replicate 39 65%N)) = 11.
Proof.
  apply (api_key_status_mask
           (Returned {[ "GOOGLE_API_KEY"%string := replicate 39 65%N ]})).
  - vm_compute. reflexivity.
  - vm_compute. reflexivity.
Defined.

(** ** Failure of the answer *)

(** [generate_answer] raises exactly when the query to the store raises,
    and then with the same exception; whatever the model does, it returns. *)
Theorem generate_answer_raises_iff (score : Type) (score_zero : score)
    (query_collection : str -> Z -> outcome (list (retrieved score)))
    (generate_content : str -> str -> str -> outcome str)
    (query api_key model_name : str) (top_k : Z) (e : str) :
  generate_answer score_zero query_collection generate_content
    query api_key model_name top_k = Raised e
  <-> query_collection query top_k = Raised e.
Proof.
  unfold generate_answer.
  destruct (query_collection query top_k) as [rs | e']; split;
    intros H; try discriminate; now injection H as ->.
Qed.

(** ** Loading the documents *)

Section LoadDocuments.

Lemma pdf_steps (fs : list uploaded_file) (acc : loading) :
  all_chunks (fold_left pdf_step fs acc)
  = all_chunks acc ++ concat (map chunks_of_file fs)
  /\ length (notices (fold_left pdf_step fs acc))
     = (length (notices acc) + length fs)%nat.
Proof.
  revert acc. induction fs as [|f fs IH]; intros acc.
  - cbn [fold_left map concat length]. rewrite app_nil_r. split; [reflexivity | lia].
  - cbn [fold_left map concat length]. destruct (IH (pdf_step acc f)) as [-> ->].
    unfold pdf_step, chunks_of_file.
    destruct (load_pdf (file_pages f) (file_name f)) as [cs | e];
      cbn [all_chunks notices]; rewrite length_app; cbn [length].
    + rewrite <- app_assoc. split; [reflexivity | lia].
    + split; [reflexivity | lia].
Qed.

Lemma web_step_chunks (acc : loading) (url_input : str) (page : fetched) :
  all_chunks (web_step acc url_input page)
  = all_chunks acc ++ chunks_of_url url_input page
  /\ length (notices (web_step acc url_input page))
     = (length (notices acc) + if truthy url_input then 1 else 0)%nat.
Proof.
  unfold web_step, chunks_of_url. destruct (truthy url_input).
  - destruct (load_web page url_input) as [cs | e]; cbn [all_chunks notices];
      rewrite length_app; cbn [length]; [|rewrite app_nil_r]; split;
      reflexivity || lia.
  - rewrite app_nil_r. split; [reflexivity | lia].
Qed.

Lemma loading_gathered (fs : list uploaded_file) (url_input : str) (page : fetched) :
  all_chunks (web_step (fold_left pdf_step fs {| all_chunks := []; notices := [] |})
                url_input page)
  = gathered fs url_input page
  /\ length (notices (web_step (fold_left pdf_step fs
                                  {| all_chunks := []; notices := [] |})
                        url_input page))
     = (length fs + if truthy url_input then 1 else 0)%nat.
Proof.
  destruct (web_step_chunks (fold_left pdf_step fs {| all_chunks := []; notices := [] |})
              url_input page) as [-> ->].
  destruct (pdf_steps fs {| all_chunks := []; notices := [] |}) as [-> ->].
  split; reflexivity.
Qed.

End LoadDocuments.

(** The indexing is called with the chunks of every file that loads, in
    the order of the files, followed by those of the URL; a file or a URL
    whose loading raises is left out without stopping the others. It is
    not called at all when there is no chunk. Each file and the URL get
    one notice, and the indexing one more. *)
Theorem load_documents_gathers (create_collection : list chunk -> outcome unit)
    (uploaded_files : list uploaded_file) (url_input : str) (page : fetched)
    (st : session) :
  indexed (load_documents create_collection uploaded_files url_input page st)
  = (if truthy (gathered uploaded_files url_input page)
     then Some (gathered uploaded_files url_input page) else None)
  /\ length (shown (load_documents create_collection uploaded_files url_input page st))
     = (length uploaded_files
        + (if truthy url_input then 1 else 0)
        + (if truthy (gathered uploaded_files url_input page) then 1 else 0))%nat.
Proof.
  unfold load_documents. cbv zeta.
  destruct (loading_gathered uploaded_files url_input page) as [Hc Hn].
  rewrite Hc. destruct (truthy (gathered uploaded_files url_input page)).
  - destruct (create_collection (gathered uploaded_files url_input page));
      cbn [indexed shown]; rewrite length_app, Hn; cbn [length];
      split; reflexivity || lia.
  - cbn [indexed shown]. rewrite Hn. split; [reflexivity | lia].
Qed.



(** ** One turn of the chat *)

(** The history is never shortened or rewritten: a turn adds at most the
    message of the user and the message of the assistant, and adds
    nothing when the key is not valid, when no document is loaded or when
    there is no prompt. *)
Theorem chat_turn_extends (score : Type) (score_zero : score)
    (query_collection : str -> Z -> outcome (list (retrieved score)))
    (generate_content : str -> str -> str -> outcome str)
    (api_key model_name : str) (documents_loaded : bool)
    (prompt : option str) (messages : list (chat_message score)) :
  exists added,
    history (chat_turn score_zero query_collection generate_content
               api_key model_name documents_loaded prompt messages)
    = messages ++ added
    /\ (length added <= 2)%nat
    /\ (is_api_key_valid (Some api_key) = false
        \/ documents_loaded = false
        \/ prompt = None \/ prompt = Some [] -> added = []).
Proof.
  unfold chat_turn.
  destruct (is_api_key_valid (Some api_key)) eqn:Hk; cbn [negb].
  2:{ exists []. rewrite app_nil_r. cbn [history length]. repeat split; auto. }
  destruct documents_loaded; cbn [negb].
  2:{ exists []. rewrite app_nil_r. cbn [history length]. repeat split; auto. }
  destruct prompt as [[|c p]|]; cbn [truthy].
  - exists []. rewrite app_nil_r. cbn [history length]. repeat split; auto.
  - cbv zeta.
    destruct (generate_answer _ _ _ _ _ _ _) as [result | e]; cbn [history].
    + eexists [_; _]. rewrite <- app_assoc. split; [reflexivity|].
      split; [simpl; lia|]. intros [H | [H | [H | H]]]; discriminate.
    + eexists [_]. split; [reflexivity|].
      split; [simpl; lia|]. intros [H | [H | [H | H]]]; discriminate.
  - exists []. rewrite app_nil_r. cbn [history length]. repeat split; auto.
Qed.

(** With a valid key, documents loaded and a prompt: when the store
    answers, the history gains the prompt as the message of the user and
    then the message of the assistant, with one source per fragment
    retrieved, also when the model fails, the answer then being the error
    text; when the query to the store raises, the history gains the
    message of the user only and the exception ends the turn. *)
Theorem chat_turn_answer (score : Type) (score_zero : score)
    (query_collection : str -> Z -> outcome (list (retrieved score)))
    (generate_content : str -> str -> str -> outcome str)
    (api_key model_name p : str) (messages : list (chat_message score)) :
  is_api_key_valid (Some api_key) = true ->
  p <> [] ->
  (forall rs, query_collection p Config.DEFAULT_TOP_K = Returned rs ->
     exists a srcs,
       chat_turn score_zero query_collection generate_content
         api_key model_name true (Some p) messages
       = {| history := messages ++ [ChatMessage (lit "user") p None;
                                     ChatMessage (lit "assistant") a (Some srcs)];
            raised := None |}
       /\ srcs = map (source_of score_zero) rs
       /\ (forall e, generate_content api_key model_name
                       (make_prompt (build_context score_zero rs).1 p) = Raised e ->
                     a = ERROR_PREFIX ++ e))
  /\ (forall e, query_collection p Config.DEFAULT_TOP_K = Raised e ->
        chat_turn score_zero query_collection generate_content
          api_key model_name true (Some p) messages
        = {| history := messages ++ [ChatMessage (lit "user") p None];
             raised := Some e |}).
Proof.
  intros Hk Hp. unfold chat_turn. rewrite Hk. cbn [negb].
  apply truthy_true in Hp. rewrite Hp. cbv zeta. unfold generate_answer.
  split.
  - intros rs ->. cbv zeta. eexists _, _. split.
    + rewrite <- app_assoc. reflexivity.
    + split.
      * rewrite <- build_context_sources. now destruct (generate_content _ _ _).
      * intros e ->. reflexivity.
  - intros e ->. reflexivity.
Qed.

Lemma chat_turn_answer_witness :
  (forall rs, one_fragment (lit "What is Rocq?") Config.DEFAULT_TOP_K = Returned rs ->
     exists a srcs,
       chat_turn 0 one_fragment out_of_quota (replicate 39 65%N)
         (lit "gemini-1.5-flash") true (Some (lit "What is Rocq?")) []
       = {| history := [] ++ [ChatMessage (lit "user") (lit "What is Rocq?") None;
                               ChatMessage (lit "assistant") a (Some srcs)];
            raised := None |}
       /\ srcs = map (source_of 0) rs
       /\ (forall e, out_of_quota (replicate 39 65%N) (lit "gemini-1.5-flash")
                       (make_prompt (build_context 0 rs).1 (lit "What is Rocq?"))
                     = Raised e ->
                     a = ERROR_PREFIX ++ e))
  /\ (forall e, one_fragment (lit "What is Rocq?") Config.DEFAULT_TOP_K = Raised e ->
        chat_turn 0 one_fragment out_of_quota (replicate 39 65%N)
          (lit "gemini-1.5-flash") true (Some (lit "What is Rocq?")) []
        = {| history := [] ++ [ChatMessage (lit "user") (lit "What is Rocq?") None];
             raised := Some e |}).
Proof.
  apply (chat_turn_answer Z 0 one_fragment out_of_quota (replicate 39 65%N)
           (lit "gemini-1.5-flash") (lit "What is Rocq?") []).
  - vm_compute. reflexivity.
  - vm_compute. discriminate.
Defined.
